(** * OllamaReranking: a shallow embedding of
      libs/kotaemon/kotaemon/rerankings/ollama.py

    The reranker asks a chat model for one relevance score per document,
    parses the textual reply into a float clamped to [0.0, 1.0], attaches the
    score to a fresh copy of the document and returns the copies sorted by
    descending score.

    Conventions of the embedding:
    - a Python [str] is a Rocq [string] whose characters are the code points
      below 256; on that range the digits of [float] and of the regex class
      [\d] are exactly ["0"] .. ["9"];
    - a Python [float] is a binary64 value, [spec_float] with precision 53 and
      maximal exponent 1024; decimal text is rounded to nearest-even;
    - exceptions are values of [exn]; code that can raise returns a [result];
    - objects live in a heap indexed by locations, the HTTP endpoint is an
      arbitrary function of the requests issued so far and of the request. *)

From Stdlib Require Import ZArith List String Ascii Permutation Sorted Lia.
From Stdlib Require Import Floats.SpecFloat.
From stdpp Require Import gmap strings list sorting.

(** ** Exceptions *)

(** The subclasses of [Exception] that the modelled code can raise. *)
Inductive exn : Type :=
  | ValueError
  | KeyError
  | IndexError
  | TypeError
  | AttributeError
  | ConnectionError
  | Timeout
  | HTTPError (status : Z)
  | JSONDecodeError.

Inductive result (A : Type) : Type :=
  | Ok (a : A)
  | Raise (e : exn).
Arguments Ok {A} a.
Arguments Raise {A} e.

(** ** Strings *)

Module Str.

Definition code (c : ascii) : N := N_of_ascii c.

Definition is_digit (c : ascii) : bool :=
  ((48 <=? code c) && (code c <=? 57))%N.

Definition digit_val (c : ascii) : N := (code c - 48)%N.

(** [str.isspace] on the code points below 256. *)
Definition is_space (c : ascii) : bool :=
  let n := code c in
  (((9 <=? n) && (n <=? 13)) || ((28 <=? n) && (n <=? 32))
   || (n =? 133) || (n =? 160))%N.

Fixpoint lstrip (p : ascii -> bool) (s : string) : string :=
  match s with
  | String c s' => if p c then lstrip p s' else s
  | EmptyString => EmptyString
  end.

Fixpoint rstrip (p : ascii -> bool) (s : string) : string :=
  match s with
  | EmptyString => EmptyString
  | String c s' =>
      match rstrip p s' with
      | EmptyString => if p c then EmptyString else String c EmptyString
      | r => String c r
      end
  end.

(** [s.strip()] *)
Definition strip (s : string) : string := lstrip is_space (rstrip is_space s).

(** [s.rstrip('/')] *)
Definition rstrip_slash (s : string) : string :=
  rstrip (fun c => Ascii.eqb c "/") s.

(** The first [n] characters of [s] (all of [s] when it is shorter). *)
Fixpoint prefix (n : nat) (s : string) : string :=
  match n, s with
  | S n', String c s' => String c (prefix n' s')
  | _, _ => EmptyString
  end.

(** [s[:stop]] for an [int] [stop]: a negative [stop] counts from the end. *)
Definition slice_to (s : string) (stop : Z) : string :=
  let len := Z.of_nat (String.length s) in
  let stop' := if (stop <? 0)%Z then Z.max 0 (len + stop) else Z.min stop len in
  prefix (Z.to_nat stop') s.

(** Case-insensitive comparison with a lower-case letter. *)
Definition lower (c : ascii) : ascii :=
  let n := code c in
  if ((65 <=? n) && (n <=? 90))%N then ascii_of_N (n + 32) else c.

(** [strip_prefix_ci p s] is the rest of [s] after the lower-case word [p],
    matched without regard to case. *)
Fixpoint strip_prefix_ci (p s : string) : option string :=
  match p, s with
  | EmptyString, _ => Some s
  | String a p', String c s' =>
      if Ascii.eqb a (lower c) then strip_prefix_ci p' s' else None
  | String _ _, EmptyString => None
  end.

End Str.

(** ** Floats *)

Module Float.

Definition float : Type := spec_float.

Definition prec : Z := 53.
Definition emax : Z := 1024.

(** The literals [0.0], [1.0] and [0.5]. *)
Definition zero : float := S754_zero false.
Definition one : float := S754_finite false 4503599627370496 (-52).
Definition half : float := S754_finite false 4503599627370496 (-53).

(** [a < b] on floats; false as soon as one side is NaN. *)
Definition ltb (a b : float) : bool := SFltb a b.
Definition leb (a b : float) : bool := SFleb a b.

(** The builtins [min(a, b)] and [max(a, b)]: the first argument is kept
    unless the second is strictly smaller (resp. strictly greater). *)
Definition py_min (a b : float) : float := if ltb b a then b else a.
Definition py_max (a b : float) : float := if ltb a b then b else a.

(** The float nearest to [(-1)^neg * m * 10^e], ties to even; a magnitude
    too large becomes an infinity, one too small a zero. *)
Definition of_decimal (neg : bool) (m : N) (e : Z) : float :=
  match m with
  | N0 => S754_zero neg
  | Npos p =>
      if (0 <=? e)%Z then
        binary_normalize prec emax (cond_Zopp neg (Z.pos p * 10 ^ e)) 0 neg
      else
        let '(q, e', l) :=
          SFdiv_core_binary prec emax (Z.pos p) 0 (10 ^ (- e)) 0 in
        binary_round_aux prec emax neg q e' l
  end.

(** Splits [s] into its longest prefix of digits and the rest. *)
Fixpoint span_digits (s : string) : string * string :=
  match s with
  | String c s' =>
      if Str.is_digit c then
        let '(ds, rest) := span_digits s' in (String c ds, rest)
      else (EmptyString, s)
  | EmptyString => (EmptyString, EmptyString)
  end.

Fixpoint digits_value (acc : N) (ds : string) : N :=
  match ds with
  | String c ds' => digits_value (10 * acc + Str.digit_val c)%N ds'
  | EmptyString => acc
  end.

Definition sign (s : string) : bool * string :=
  match s with
  | String "-" s' => (true, s')
  | String "+" s' => (false, s')
  | _ => (false, s)
  end.

(** The exponent part [e|E [sign] digits]; without digits after the letter
    nothing is consumed. *)
Definition exponent (s : string) : Z * string :=
  match s with
  | String c t =>
      if Ascii.eqb c "e" || Ascii.eqb c "E" then
        let '(neg, t1) := sign t in
        let '(ds, t2) := span_digits t1 in
        match ds with
        | EmptyString => (0%Z, s)
        | _ => (cond_Zopp neg (Z.of_N (digits_value 0 ds)), t2)
        end
      else (0%Z, s)
  | EmptyString => (0%Z, s)
  end.

(** Decimal text: [[sign] (digits [. [digits]] | . digits) [exponent]].
    Returns the value and the text left over, [None] when no number starts
    [s]. *)
Definition strtod (s : string) : option (float * string) :=
  let '(neg, s1) := sign s in
  let '(ip, s2) := span_digits s1 in
  let '(fp, s3) :=
    match s2 with
    | String "." t => span_digits t
    | _ => (EmptyString, s2)
    end in
  match ip +:+ fp with
  | EmptyString => None
  | ds =>
      let '(e, s4) := exponent s3 in
      Some (of_decimal neg (digits_value 0 ds)
              (e - Z.of_nat (String.length fp)), s4)
  end.

(** [[sign] (inf | infinity | nan)], in any case. *)
Definition parse_inf_or_nan (s : string) : option (float * string) :=
  let '(neg, s1) := sign s in
  match Str.strip_prefix_ci "inf" s1 with
  | Some r =>
      match Str.strip_prefix_ci "inity" r with
      | Some r' => Some (S754_infinity neg, r')
      | None => Some (S754_infinity neg, r)
      end
  | None =>
      match Str.strip_prefix_ci "nan" s1 with
      | Some r => Some (S754_nan, r)
      | None => None
      end
  end.

(** Underscores may only stand between two digits; they are dropped. *)
Fixpoint remove_underscores (prev : ascii) (s : string) : option string :=
  match s with
  | EmptyString => if Ascii.eqb prev "_" then None else Some EmptyString
  | String c s' =>
      if Ascii.eqb c "_" then
        if Str.is_digit prev then remove_underscores c s' else None
      else if Ascii.eqb prev "_" && negb (Str.is_digit c) then None
      else option_map (String c) (remove_underscores c s')
  end.

(** Whitespace that [float] strips around its argument. *)
Definition is_space (c : ascii) : bool :=
  let n := Str.code c in
  (((9 <=? n) && (n <=? 13)) || (n =? 32) || (n =? 133) || (n =? 160))%N.

(** [float(s)] *)
Definition of_str (s : string) : result float :=
  match remove_underscores "000" s with
  | None => Raise ValueError
  | Some s1 =>
      let s2 := Str.lstrip is_space (Str.rstrip is_space s1) in
      let parsed :=
        match strtod s2 with
        | Some r => Some r
        | None => parse_inf_or_nan s2
        end in
      match parsed with
      | Some (x, EmptyString) => Ok x
      | _ => Raise ValueError
      end
  end.

End Float.

(** ** Regular expressions

    The fragment of [re] that the pattern of [_score_relevance] uses, with the
    backtracking semantics of the library: alternatives are tried left to
    right, quantifiers are greedy and give characters back on failure. *)

Module Re.

Inductive atom : Type :=
  | Chr (c : ascii)          (* a literal character, [\.] *)
  | Digit                    (* [\d] *)
  | OneOf (cs : string).     (* [[01]] *)

Fixpoint mem (c : ascii) (cs : string) : bool :=
  match cs with
  | String d cs' => Ascii.eqb c d || mem c cs'
  | EmptyString => false
  end.

Definition atom_matches (a : atom) (c : ascii) : bool :=
  match a with
  | Chr d => Ascii.eqb c d
  | Digit => Str.is_digit c
  | OneOf cs => mem c cs
  end.

Inductive re : Type :=
  | One (a : atom)
  | Opt (a : atom)           (* [a?] *)
  | Star (a : atom)          (* [a*] *)
  | Plus (a : atom)          (* [a+] *)
  | Seq (r1 r2 : re)
  | Alt (r1 r2 : re).        (* [r1|r2] *)

(** [k] is the continuation of the match: it receives the text still to be
    read and answers with the text left over by the whole match. *)
Definition one (a : atom) (s : string) (k : string -> option string)
  : option string :=
  match s with
  | String c s' => if atom_matches a c then k s' else None
  | EmptyString => None
  end.

Fixpoint star (a : atom) (s : string) (k : string -> option string)
  : option string :=
  match s with
  | String c s' =>
      if atom_matches a c then
        match star a s' k with
        | Some r => Some r
        | None => k s
        end
      else k s
  | EmptyString => k s
  end.

Fixpoint exec (r : re) (s : string) (k : string -> option string)
  : option string :=
  match r with
  | One a => one a s k
  | Opt a =>
      match one a s k with
      | Some r => Some r
      | None => k s
      end
  | Star a => star a s k
  | Plus a => one a s (fun s' => star a s' k)
  | Seq r1 r2 => exec r1 s (fun s' => exec r2 s' k)
  | Alt r1 r2 =>
      match exec r1 s k with
      | Some r => Some r
      | None => exec r2 s k
      end
  end.

(** The match of [r] at the start of [s], when there is one. *)
Definition match_here (r : re) (s : string) : option string :=
  match exec r s Some with
  | Some rest => Some (Str.prefix (String.length s - String.length rest) s)
  | None => None
  end.

(** [skip] counts the characters of the previous match still to be passed. *)
Fixpoint findall_from (r : re) (s : string) (skip : nat) : list string :=
  match s with
  | EmptyString =>
      match skip, match_here r s with
      | O, Some m => [m]
      | _, _ => []
      end
  | String _ s' =>
      match skip with
      | S n => findall_from r s' n
      | O =>
          match match_here r s with
          | Some m => m :: findall_from r s' (String.length m - 1)
          | None => findall_from r s' 0
          end
      end
  end.

(** [re.findall(r, s)] for a pattern without groups: the matches, leftmost
    first, none overlapping. *)
Definition findall (r : re) (s : string) : list string := findall_from r s 0.

End Re.

(** ** [list.sort]

    The library sort is modelled by its contract: a stable sort that compares
    keys with [<] only.  Insertion from left to right, each element going
    behind the elements that are not greater, is such a sort.  With
    [reverse=True] the list is reversed, sorted, and reversed again, which
    keeps elements with equal keys in their original order.  On keys that [<]
    orders, the contract fixes the result ([stable_desc_unique] below), so the
    choice of the algorithm does not show. *)

Module ListSort.
Section Sort.
Context {A K : Type}.
Variable key : A -> K.
Variable lt : K -> K -> bool.

Fixpoint insert (x : A) (l : list A) : list A :=
  match l with
  | [] => [x]
  | y :: l' => if lt (key x) (key y) then x :: l else y :: insert x l'
  end.

Definition sort_asc (l : list A) : list A :=
  fold_left (fun acc x => insert x acc) l [].

Definition sort (reverse : bool) (l : list A) : list A :=
  if reverse then rev (sort_asc (rev l)) else sort_asc l.

(** [b] is not smaller than [a]: the order of two neighbours in a sorted
    list. *)
Definition not_gt (a b : A) : Prop := lt (key b) (key a) = false.

(** [l'] is a stable descending sort of [l]: the same elements, no element
    smaller than a later one, and two elements with equal keys in the order
    they have in [l]. *)
Definition stable_desc (l l' : list A) : Prop :=
  Permutation l' l /\
  StronglySorted (fun a b => lt (key a) (key b) = false) l' /\
  forall a b,
    lt (key a) (key b) = false /\ lt (key b) (key a) = false ->
    [a; b] `sublist_of` l -> [a; b] `sublist_of` l'.
End Sort.
End ListSort.

(** ** Objects, requests and the world *)

Definition loc : Type := positive.

Inductive value : Type :=
  | VNone
  | VBool (b : bool)
  | VInt (n : Z)
  | VFloat (x : Float.float)
  | VStr (s : string)
  | VRef (l : loc).

(** Modelled from the spec: the class [Document] of [kotaemon.base] is not
    part of the sources at hand; a document is a record with a [text] string
    and a [metadata] mapping from strings to arbitrary values.  The mapping is
    an object of its own, so a document holds a reference to it, or [None]. *)
Inductive object : Type :=
  | ODict (entries : gmap string value)
  | OList (items : list value)
  | ODocument (text : string) (metadata : option loc).

(** The decoded body of a response, as [response.json()] returns it. *)
#[warnings="-register-all"]
Inductive json : Type :=
  | JNull
  | JBool (b : bool)
  | JInt (n : Z)
  | JFloat (x : Float.float)
  | JString (s : string)
  | JArray (items : list json)
  | JObject (members : list (string * json)).

Record message : Type := Message { role : string; content : string }.

Record payload : Type := Payload {
  p_model : string;
  p_messages : list message;
  p_temperature : Float.float;
  p_max_tokens : Z
}.

Record request : Type := Request {
  r_url : string;
  r_headers : list (string * string);
  r_json : payload;
  r_timeout : Z
}.

(** What a POST comes back with: an exception raised by the transport
    (connection refused, timeout, ...) or a response with a status code and a
    body, [None] when the body is not valid JSON. *)
Inductive reply : Type :=
  | Failed (e : exn)
  | Response (status : Z) (body : option json).

Record world : Type := World {
  heap : gmap loc object;
  sent : list request          (* the requests posted so far, oldest first *)
}.

(** ** Computations: state and exceptions *)

Definition M (A : Type) : Type := world -> result A * world.

Definition ret {A} (a : A) : M A := fun w => (Ok a, w).

Definition bind {A B} (m : M A) (k : A -> M B) : M B :=
  fun w =>
    match m w with
    | (Ok a, w') => k a w'
    | (Raise e, w') => (Raise e, w')
    end.

Definition lift {A} (r : result A) : M A := fun w => (r, w).

(** [try: body except Exception: handler]; every [exn] is an [Exception]. *)
Definition try_except {A} (body : M A) (handler : exn -> M A) : M A :=
  fun w =>
    match body w with
    | (Ok a, w') => (Ok a, w')
    | (Raise e, w') => handler e w'
    end.

Notation "'let*' x ':=' m 'in' k" := (bind m (fun x => k))
  (at level 10, x pattern, m at level 100, k at level 200).

(** [JSONDecodeError] is a subclass of [ValueError]. *)
Definition is_ValueError (e : exn) : bool :=
  match e with
  | ValueError | JSONDecodeError => true
  | _ => false
  end.

(** Allocation of a new object at an unused location. *)
Definition alloc (o : object) : M loc :=
  fun w =>
    let l := fresh (dom (heap w)) in
    (Ok l, {| heap := <[l := o]> (heap w); sent := sent w |}).

(** [doc.text] *)
Definition get_text (doc : loc) : M string :=
  fun w =>
    match heap w !! doc with
    | Some (ODocument text _) => (Ok text, w)
    | _ => (Raise AttributeError, w)
    end.

(** [doc.metadata] *)
Definition get_metadata (doc : loc) : M (option loc) :=
  fun w =>
    match heap w !! doc with
    | Some (ODocument _ metadata) => (Ok metadata, w)
    | _ => (Raise AttributeError, w)
    end.

(** The entries read by [**(metadata or {})]: those of the dictionary, none
    for [None] (an empty dictionary is falsy and replaced by [{}], with the
    same entries). *)
Definition entries_or_empty (metadata : option loc) : M (gmap string value) :=
  match metadata with
  | None => ret ∅
  | Some m =>
      fun w =>
        match heap w !! m with
        | Some (ODict entries) => (Ok entries, w)
        | _ => (Raise TypeError, w)
        end
  end.

(** ** The JSON accessors of [_score_relevance] *)

Fixpoint assoc (k : string) (members : list (string * json)) : option json :=
  match members with
  | [] => None
  | (k', v) :: rest => if String.eqb k k' then Some v else assoc k rest
  end.

(** [j[k]] for a string [k] *)
Definition getitem_str (j : json) (k : string) : result json :=
  match j with
  | JObject members =>
      match assoc k members with
      | Some v => Ok v
      | None => Raise KeyError
      end
  | _ => Raise TypeError
  end.

(** [j[0]] *)
Definition getitem_0 (j : json) : result json :=
  match j with
  | JArray items =>
      match items with
      | v :: _ => Ok v
      | [] => Raise IndexError
      end
  | JString s =>
      match s with
      | String c _ => Ok (JString (String c EmptyString))
      | EmptyString => Raise IndexError
      end
  | JObject _ => Raise KeyError      (* the keys of a decoded object are strings *)
  | _ => Raise TypeError
  end.

(** [j.strip()] *)
Definition json_strip (j : json) : result string :=
  match j with
  | JString s => Ok (Str.strip s)
  | _ => Raise AttributeError
  end.

Definition and_then {A B} (r : result A) (k : A -> result B) : result B :=
  match r with
  | Ok a => k a
  | Raise e => Raise e
  end.

(** [result["choices"][0]["message"]["content"].strip()] *)
Definition reply_content (j : json) : result string :=
  and_then (getitem_str j "choices") (fun choices =>
  and_then (getitem_0 choices) (fun choice =>
  and_then (getitem_str choice "message") (fun msg =>
  and_then (getitem_str msg "content") json_strip))).

(** [response.raise_for_status()]: the statuses 400 to 599 raise. *)
Definition raise_for_status (status : Z) : result unit :=
  if ((400 <=? status) && (status <? 600))%Z then Raise (HTTPError status)
  else Ok tt.

(** [response.json()] *)
Definition response_json (body : option json) : result json :=
  match body with
  | Some j => Ok j
  | None => Raise JSONDecodeError
  end.

(** ** The reranker *)

Import Float.

Record config : Type := Config {
  base_url : string;
  model : string;
  api_key : string;
  max_tokens : option Z;
  temperature : float;
  timeout : Z
}.

(** The defaults of the [Param] declarations. *)
Definition default_config : config :=
  {| base_url := "http://localhost:11434/v1/";
     model := "qwen2.5:7b";
     api_key := "ollama";
     max_tokens := Some 512%Z;
     temperature := zero;
     timeout := 30 |}.

Definition newline : string := String (ascii_of_nat 10) EmptyString.

(** The pattern [0?\.\d+|[01]\.?\d*]. *)
Definition number_pattern : Re.re :=
  Re.Alt
    (Re.Seq (Re.Opt (Re.Chr "0")) (Re.Seq (Re.One (Re.Chr ".")) (Re.Plus Re.Digit)))
    (Re.Seq (Re.One (Re.OneOf "01")) (Re.Seq (Re.Opt (Re.Chr ".")) (Re.Star Re.Digit))).

(** The inner [try] of [_score_relevance]: the reply is read as a float and
    clamped; on [ValueError] the first match of the pattern is read instead,
    and without a match the score is 0.5. *)
Definition parse_score (content : string) : result float :=
  match Float.of_str content with
  | Ok score => Ok (py_max zero (py_min one score))
  | Raise e =>
      if is_ValueError e then
        let numbers := Re.findall number_pattern content in
        match numbers with
        | n0 :: _ =>
            match Float.of_str n0 with
            | Ok score => Ok (py_max zero (py_min one score))
            | Raise e' => Raise e'
            end
        | [] => Ok half
        end
      else Raise e
  end.

Section Reranking.

(** The endpoint: its answer may depend on everything posted before. *)
Variable server : list request -> request -> reply.

(** The parameters of the instance. *)
Variable self : config.

(** [self.session], set up by [__init__]: the headers of every request. *)
Definition session_headers : list (string * string) :=
  [("Authorization", "Bearer " +:+ api_key self);
   ("Content-Type", "application/json")].

(** [self.session.post(url, json=..., timeout=...)] *)
Definition post (url : string) (body : payload) (tmo : Z) : M (Z * option json) :=
  fun w =>
    let req := {| r_url := url; r_headers := session_headers;
                  r_json := body; r_timeout := tmo |} in
    let w' := {| heap := heap w; sent := sent w ++ [req] |} in
    match server (sent w) req with
    | Failed e => (Raise e, w')
    | Response status body => (Ok (status, body), w')
    end.

Definition _truncate_text (text : string) : string :=
  match max_tokens self with
  | Some n =>
      if (negb (n =? 0) && (n <? Z.of_nat (String.length text)))%Z
      then Str.slice_to text n
      else text
  | None => text
  end.

Definition prompt_of (query document : string) : string :=
  "Given the following query and document, rate the relevance of the document to the query on a scale from 0.0 to 1.0, where 0.0 means completely irrelevant and 1.0 means perfectly relevant."
  +:+ newline +:+ newline +:+ "Query: " +:+ query
  +:+ newline +:+ newline +:+ "Document: " +:+ document
  +:+ newline +:+ newline
  +:+ "Please respond with only a single number between 0.0 and 1.0 representing the relevance score.".

(** The statements of the outer [try], up to the reply text. *)
Definition fetch_content (body : payload) : M string :=
  let* response :=
    post (Str.rstrip_slash (base_url self) +:+ "/chat/completions")
         body (timeout self) in
  let '(status, raw) := response in
  let* _ := lift (raise_for_status status) in
  let* result := lift (response_json raw) in
  lift (reply_content result).

(** The report printed by the handler is not modelled. *)
Definition _score_relevance (query document : string) : M float :=
  let prompt := prompt_of query document in
  let body :=
    {| p_model := model self;
       p_messages := [ {| role := "user"; content := prompt |} ];
       p_temperature := temperature self;
       p_max_tokens := 10 |} in
  try_except
    (let* content := fetch_content body in
     lift (parse_score content))
    (fun _ => ret half).

(** The loop of [run]: one pass over [documents], appending to
    [scored_docs]. *)
Fixpoint score_loop (query : string) (documents : list loc)
    (scored_docs : list (float * loc)) : M (list (float * loc)) :=
  match documents with
  | [] => ret scored_docs
  | doc :: rest =>
      let* text := get_text doc in
      let doc_text := _truncate_text text in
      let* score := _score_relevance query doc_text in
      let* text' := get_text doc in
      let* metadata := get_metadata doc in
      let* entries := entries_or_empty metadata in
      let* new_metadata :=
        alloc (ODict (<["rerank_score" := VFloat score]> entries)) in
      let* scored_doc := alloc (ODocument text' (Some new_metadata)) in
      score_loop query rest (scored_docs ++ [(score, scored_doc)])
  end.

Definition run (query : string) (documents : list loc) : M (list loc) :=
  match documents with
  | [] => ret documents
  | _ :: _ =>
      let* scored_docs := score_loop query documents [] in
      let sorted := ListSort.sort fst Float.ltb true scored_docs in
      ret (map snd sorted)
  end.

End Reranking.

(** ** Notions used by the statements *)

(** [0.0 <= x <= 1.0] *)
Definition in_unit (x : float) : bool := Float.leb zero x && Float.leb x one.

(** [a == b] on floats *)
Definition feq (a b : float) : bool := SFeqb a b.

Definition is_nan (x : float) : bool :=
  match x with
  | S754_nan => true
  | _ => false
  end.

Definition doc_text (h : gmap loc object) (d : loc) : option string :=
  match h !! d with
  | Some (ODocument text _) => Some text
  | _ => None
  end.

(** The metadata entries of the document at [d]; none for [None]. *)
Definition doc_entries (h : gmap loc object) (d : loc)
  : option (gmap string value) :=
  match h !! d with
  | Some (ODocument _ None) => Some ∅
  | Some (ODocument _ (Some m)) =>
      match h !! m with
      | Some (ODict entries) => Some entries
      | _ => None
      end
  | _ => None
  end.

(** [d.metadata["rerank_score"]] when it is a float. *)
Definition doc_score (h : gmap loc object) (d : loc) : option float :=
  match doc_entries h d with
  | Some entries =>
      match entries !! "rerank_score" with
      | Some (VFloat x) => Some x
      | _ => None
      end
  | None => None
  end.

(** The text and the metadata entries other than the score. *)
Definition doc_content (h : gmap loc object) (d : loc)
  : option (string * gmap string value) :=
  match doc_text h d, doc_entries h d with
  | Some text, Some entries => Some (text, delete "rerank_score" entries)
  | _, _ => None
  end.

Fixpoint all_digits (s : string) : bool :=
  match s with
  | EmptyString => true
  | String c s' => Str.is_digit c && all_digits s'
  end.

Definition nonempty (s : string) : bool :=
  match s with
  | EmptyString => false
  | String _ _ => true
  end.

(** The shapes [0.ddd], [.ddd], [0], [1] and [1.ddd], [ddd] being one digit
    or more. *)
Definition restricted_shape (s : string) : bool :=
  match s with
  | EmptyString => false
  | String c rest =>
      if Ascii.eqb c "." then nonempty rest && all_digits rest
      else if Ascii.eqb c "0" || Ascii.eqb c "1" then
        match rest with
        | EmptyString => true
        | String c' ds => Ascii.eqb c' "." && nonempty ds && all_digits ds
        end
      else false
  end.

(** The shapes of the pattern [0?\.\d+|[01]\.?\d*]: [.ddd] and [0.ddd] with
    one digit or more after the point, or a [0] or a [1] followed by an
    optional point and any number of digits. *)
Definition pattern_shape (s : string) : bool :=
  match s with
  | EmptyString => false
  | String c rest =>
      if Ascii.eqb c "." then nonempty rest && all_digits rest
      else if Ascii.eqb c "0" || Ascii.eqb c "1" then
        match rest with
        | EmptyString => true
        | String c' ds =>
            if Ascii.eqb c' "." then all_digits ds else all_digits rest
        end
      else false
  end.

(** The characters of a match of the pattern: digits and points. *)
Fixpoint numeric (s : string) : bool :=
  match s with
  | EmptyString => true
  | String c s' => (Str.is_digit c || Ascii.eqb c ".") && numeric s'
  end.

(** [sub] occurs in [s]. *)
Definition substring_of (sub s : string) : Prop :=
  exists pre post, s = pre +:+ sub +:+ post.

(** The request that scores [document] against [query]. *)
Definition scoring_request (self : config) (query document : string) : request :=
  {| r_url := Str.rstrip_slash (base_url self) +:+ "/chat/completions";
     r_headers := session_headers self;
     r_json :=
       {| p_model := model self;
          p_messages :=
            [ {| role := "user"; content := prompt_of query document |} ];
          p_temperature := temperature self;
          p_max_tokens := 10 |};
     r_timeout := timeout self |}.

(** [p] is the scored copy of the document at [d]: a new document with the
    text of [d], and a new dictionary with the entries of [d] and the score
    under ["rerank_score"]; [h] is the heap before, [h'] the heap after. *)
Definition scored_copy (h h' : gmap loc object) (d : loc) (p : float * loc)
  : Prop :=
  exists text entries m,
    doc_text h d = Some text /\ doc_entries h d = Some entries /\
    h !! p.2 = None /\ h !! m = None /\
    h' !! p.2 = Some (ODocument text (Some m)) /\
    h' !! m = Some (ODict (<["rerank_score" := VFloat p.1]> entries)) /\
    in_unit p.1 = true.

(** A well-formed input: every element of the list is a document whose
    metadata is [None] or a dictionary. *)
Definition valid_docs (h : gmap loc object) (docs : list loc) : Prop :=
  Forall (fun d => is_Some (doc_entries h d)) docs.

(** The ways a scoring call fails: the transport raises, the status is an
    error status, the body is not JSON, or the reply text cannot be reached
    in the decoded body. *)
Definition http_failure (r : reply) : Prop :=
  match r with
  | Failed _ => True
  | Response status body =>
      (400 <= status < 600)%Z \/
      match body with
      | None => True
      | Some j => exists e, reply_content j = Raise e
      end
  end.

(** ** Examples used to exercise the statements *)

(** A well-formed chat completion whose reply text is [text]. *)
Definition chat_body (text : string) : json :=
  JObject
    [("choices",
      JArray
        [JObject
           [("index", JInt 0);
            ("message",
             JObject [("role", JString "assistant"); ("content", JString text)])]])].

(** An endpoint that answers the n-th request with the n-th element of
    [replies], and refuses the connection afterwards. *)
Definition stub_server (replies : list reply)
  : list request -> request -> reply :=
  fun history _ => default (Failed ConnectionError) (replies !! length history).

Definition example_heap : gmap loc object :=
  <[1%positive := ODocument "Paris is the capital of France." None]>
    (<[2%positive := ODocument "Bananas are yellow." (Some 3%positive)]>
       (<[3%positive := ODict (<["source" := VStr "notes"]> ∅)]> ∅)).

Definition example_world : world := {| heap := example_heap; sent := [] |}.

Definition example_docs : list loc := [2%positive; 1%positive; 2%positive].

Definition example_server : list request -> request -> reply :=
  stub_server [Response 200 (Some (chat_body "0.1"));
               Response 200 (Some (chat_body " 0.95 "));
               Response 503 None].

(** A configuration whose maximal length is [n]. *)
Definition config_with_max (n : option Z) : config :=
  {| base_url := base_url default_config;
     model := model default_config;
     api_key := api_key default_config;
     max_tokens := n;
     temperature := temperature default_config;
     timeout := timeout default_config |}.

(** The texts of the documents that [run] returns, in order. *)
Definition texts_of (r : result (list loc) * world) : list (option string) :=
  match r with
  | (Ok out, w') => map (doc_text (heap w')) out
  | (Raise _, _) => []
  end.

(** ** Notions used by the further properties *)

(** Every character of [s] satisfies [p]. *)
Fixpoint all_chars (p : ascii -> bool) (s : string) : bool :=
  match s with
  | EmptyString => true
  | String c s' => p c && all_chars p s'
  end.

(** [k] slashes. *)
Fixpoint slashes (k : nat) : string :=
  match k with
  | O => EmptyString
  | S k' => String "/" (slashes k')
  end.

Fixpoint last_char (s : string) : option ascii :=
  match s with
  | EmptyString => None
  | String c EmptyString => Some c
  | String _ s' => last_char s'
  end.

(** [self] with another base URL. *)
Definition with_base_url (self : config) (u : string) : config :=
  {| base_url := u;
     model := model self;
     api_key := api_key self;
     max_tokens := max_tokens self;
     temperature := temperature self;
     timeout := timeout self |}.

(** * Properties *)

(** ** Floats: clamping and order *)

Lemma clamp_in_unit x : in_unit (py_max zero (py_min one x)) = true.
Proof.
  unfold py_max, py_min, in_unit, leb, ltb.
  destruct (SFltb x one) eqn:H1.
  - destruct (SFltb zero x) eqn:H0.
    + unfold SFltb, SFleb in *. 
      destruct (SFcompare zero x) as [[]|]; try discriminate.
      destruct (SFcompare x one) as [[]|]; try discriminate. reflexivity.
    + reflexivity.
  - reflexivity.
Qed.



Lemma ltb_asym a b : ltb a b = true -> ltb b a = false.
Proof.
  unfold ltb, SFltb.
  destruct a as [sa|sa| |sa ma ea], b as [sb|sb| |sb mb eb]; simpl; try destruct sa; try destruct sb; simpl; try congruence.
  all: rewrite (Z.compare_antisym ea eb); destruct (ea ?= eb)%Z; simpl; try congruence.
  all: change (Pos.compare_cont Eq mb ma) with (Pos.compare mb ma); change (Pos.compare_cont Eq ma mb) with (Pos.compare ma mb); rewrite (Pos.compare_antisym ma mb); destruct (ma ?= mb)%positive; simpl; congruence.
Qed.

Lemma ltb_negtrans a b c : is_nan c = false -> ltb a b = true -> ltb a c = true \/ ltb c b = true.
Proof.
  unfold ltb, SFltb.
  destruct a as [sa|sa| |sa ma ea], b as [sb|sb| |sb mb eb], c as [sc|sc| |sc mc ec]; simpl; try destruct sa; try destruct sb; try destruct sc; simpl; try congruence; auto.
  all: change (Pos.compare_cont Eq) with Pos.compare.
  all: intros _.
  all: destruct (Z.compare_spec ea eb); destruct (Z.compare_spec ea ec); destruct (Z.compare_spec ec eb); try lia; simpl; auto; try congruence.
  all: destruct (Pos.compare_spec ma mb); destruct (Pos.compare_spec ma mc); destruct (Pos.compare_spec mc mb); try lia; simpl; auto; try congruence.
Qed.

(** ** Strings *)

Section StringFacts.
Local Arguments String.append !_ _ / : simpl nomatch.

Lemma append_nil_r s : s +:+ "" = s.
Proof. induction s; simpl; congruence. Qed.

Lemma append_assoc s1 s2 s3 : (s1 +:+ s2) +:+ s3 = s1 +:+ (s2 +:+ s3).
Proof. induction s1; simpl; congruence. Qed.

Lemma length_append s1 s2 :
  String.length (s1 +:+ s2) = (String.length s1 + String.length s2)%nat.
Proof. induction s1; simpl; congruence. Qed.

Lemma prefix_append s r :
  Str.prefix (String.length (s +:+ r) - String.length r) (s +:+ r) = s.
Proof.
  rewrite length_append.
  replace (String.length s + String.length r - String.length r)%nat
    with (String.length s) by lia.
  induction s; simpl; [now destruct r|congruence].
Qed.

Lemma all_digits_append s1 s2 :
  all_digits (s1 +:+ s2) = all_digits s1 && all_digits s2.
Proof. induction s1; simpl; [reflexivity|]. rewrite IHs1. now destruct (Str.is_digit a). Qed.


Lemma lstrip_digits s :
  exists ds, s = ds +:+ Str.lstrip Str.is_digit s /\ all_digits ds = true.
Proof.
  induction s as [|c s (ds & IH & Hd)]; simpl.
  - now exists "".
  - destruct (Str.is_digit c) eqn:E.
    + exists (String c ds). simpl. rewrite E, Hd. split; [now f_equal|reflexivity].
    + now exists "".
Qed.

Lemma lstrip_cons p c s :
  Str.lstrip p (String c s) = if p c then Str.lstrip p s else String c s.
Proof. reflexivity. Qed.

(** The digits in front of a string that starts with [c2] start with [c2]. *)
Lemma lstrip_digits_head c2 u ds :
  String c2 u = ds +:+ Str.lstrip Str.is_digit (String c2 u) ->
  (c2 =? ".")%char = false ->
  match ds with
  | "" => True
  | String c' _ => (c' =? ".")%char = false
  end.
Proof.
  destruct ds as [|c' ds]; [easy|]. rewrite lstrip_cons.
  destruct (Str.is_digit c2); simpl; intros Hv E.
  - now inversion Hv; subst.
  - apply (f_equal String.length) in Hv. simpl in Hv.
    rewrite length_append in Hv. simpl in Hv. lia.
Qed.

Lemma star_digit s :
  Re.star Re.Digit s Some = Some (Str.lstrip Str.is_digit s).
Proof.
  induction s as [|c s IH]; simpl; [reflexivity|].
  destruct (Str.is_digit c); [now rewrite IH|reflexivity].
Qed.
End StringFacts.

Section Pattern.
Local Arguments String.append !_ _ / : simpl nomatch.

Local Arguments Re.star : simpl never.
Local Arguments Str.lstrip : simpl never.

Lemma exec_number_pattern s rest :
  Re.exec number_pattern s Some = Some rest ->
  exists m, s = m +:+ rest /\ pattern_shape m = true.
Proof.
  unfold number_pattern. simpl. unfold Re.one. simpl.
  destruct s as [|c t]; [discriminate|].
  assert (Hdig : forall u, exists ds,
             u = ds +:+ Str.lstrip Str.is_digit u /\ all_digits ds = true)
    by apply lstrip_digits.
  pose proof lstrip_digits_head as Hhd.
  destruct (Ascii.eqb c "0") eqn:E0.
  - apply Ascii.eqb_eq in E0 as ->. simpl.
    destruct t as [|c2 u]; rewrite ?star_digit; simpl.
    + intros [= <-]. now exists "0".
    + destruct (Ascii.eqb c2 ".") eqn:E1.
      * apply Ascii.eqb_eq in E1 as ->.
        destruct u as [|d v]; rewrite ?star_digit; simpl.
        -- intros [= <-]. now exists "0.".
        -- destruct (Str.is_digit d) eqn:Ed; rewrite ?star_digit; simpl; intros [= <-].
           ++ destruct (Hdig v) as (ds & Hv & Hds).
              exists (String "0" (String "." (String d ds))). simpl.
              rewrite Ed, Hds. split; [now do 3 f_equal|reflexivity].
           ++ exists "0.". split; [|reflexivity].
              rewrite lstrip_cons. now rewrite Ed.
      * intros [= <-].
        destruct (Hdig (String c2 u)) as (ds & Hv & Hds).
        exists (String "0" ds). simpl. split; [now f_equal|].
        specialize (Hhd c2 u ds Hv E1).
        destruct ds as [|c' ds']; [reflexivity|]. now rewrite Hhd.
  - destruct (Ascii.eqb c ".") eqn:E1.
    + apply Ascii.eqb_eq in E1 as ->. simpl.
      destruct t as [|d v]; [discriminate|].
      destruct (Str.is_digit d) eqn:Ed; [|discriminate].
      rewrite star_digit; simpl. intros [= <-].
      destruct (Hdig v) as (ds & Hv & Hds).
      exists (String "." (String d ds)). simpl. rewrite Ed, Hds.
      split; [now do 2 f_equal|reflexivity].
    + simpl.
      destruct (Ascii.eqb c "1") eqn:E2; [|discriminate].
      apply Ascii.eqb_eq in E2 as ->. simpl.
      destruct t as [|c2 u]; rewrite ?star_digit; simpl.
      * intros [= <-]. now exists "1".
      * destruct (Ascii.eqb c2 ".") eqn:E3; rewrite ?star_digit; simpl; intros [= <-].
        -- apply Ascii.eqb_eq in E3 as ->.
           destruct (Hdig u) as (ds & Hv & Hds).
           exists (String "1" (String "." ds)). simpl.
           split; [now do 2 f_equal|exact Hds].
        -- destruct (Hdig (String c2 u)) as (ds & Hv & Hds).
           exists (String "1" ds). simpl. split; [now f_equal|].
           specialize (Hhd c2 u ds Hv E3).
           destruct ds as [|c' ds']; [reflexivity|]. now rewrite Hhd.
Qed.
End Pattern.

Section FloatText.
Local Arguments String.append !_ _ / : simpl nomatch.

Lemma all_digits_numeric s : all_digits s = true -> numeric s = true.
Proof.
  induction s as [|c s IH]; simpl; [reflexivity|].
  intros [-> H]%andb_true_iff. simpl. auto.
Qed.

Lemma pattern_shape_numeric m : pattern_shape m = true -> numeric m = true.
Proof.
  destruct m as [|c rest]; simpl; [discriminate|].
  destruct (Ascii.eqb c ".") eqn:E.
  - intros [_ H]%andb_true_iff. rewrite orb_true_r. now apply all_digits_numeric.
  - destruct (Ascii.eqb c "0") eqn:E0; [|destruct (Ascii.eqb c "1") eqn:E1]; simpl;
      try discriminate.
    all: try (apply Ascii.eqb_eq in E0 as ->); try (apply Ascii.eqb_eq in E1 as ->); simpl.
    all: destruct rest as [|c' ds]; [reflexivity|].
    all: destruct (Ascii.eqb c' ".") eqn:E'; intros H.
    all: try (simpl; rewrite E', orb_true_r; now apply all_digits_numeric).
    all: now apply (all_digits_numeric (String c' ds)).
Qed.

Lemma numeric_char c :
  (Str.is_digit c || Ascii.eqb c ".") = true ->
  Ascii.eqb c "_" = false /\ Float.is_space c = false.
Proof.
  destruct c as [[] [] [] [] [] [] [] []]; vm_compute; intros; try discriminate; auto.
Qed.

Lemma remove_underscores_numeric s :
  forall prev, Ascii.eqb prev "_" = false -> numeric s = true ->
    remove_underscores prev s = Some s.
Proof.
  induction s as [|c s IH]; simpl; intros prev Hp H.
  - now rewrite Hp.
  - apply andb_true_iff in H as [Hc Hs].
    destruct (numeric_char c Hc) as [Hu _]. rewrite Hu, Hp. simpl.
    now rewrite (IH c Hu Hs).
Qed.

Lemma lstrip_numeric s :
  numeric s = true -> Str.lstrip Float.is_space s = s.
Proof.
  destruct s as [|c s]; simpl; [reflexivity|].
  intros [Hc _]%andb_true_iff. now destruct (numeric_char c Hc) as [_ ->].
Qed.

Lemma rstrip_numeric s :
  numeric s = true -> Str.rstrip Float.is_space s = s.
Proof.
  induction s as [|c s IH]; simpl; [reflexivity|].
  intros [Hc Hs]%andb_true_iff. rewrite (IH Hs).
  destruct (numeric_char c Hc) as [_ ->]. now destruct s.
Qed.

Lemma span_digits_all ds : all_digits ds = true -> span_digits ds = (ds, EmptyString).
Proof.
  induction ds as [|c ds IH]; simpl; [reflexivity|].
  intros [-> H]%andb_true_iff. now rewrite (IH H).
Qed.

Lemma strtod_pattern_shape m :
  pattern_shape m = true -> exists x, strtod m = Some (x, EmptyString).
Proof.
  destruct m as [|c rest]; simpl; [discriminate|].
  destruct (Ascii.eqb c ".") eqn:E.
  - apply Ascii.eqb_eq in E as ->. intros [Hn Hd]%andb_true_iff.
    unfold strtod. simpl. rewrite (span_digits_all _ Hd).
    destruct rest; [discriminate|]. simpl. eauto.
  - destruct (Ascii.eqb c "0" || Ascii.eqb c "1") eqn:E01; [|discriminate].
    assert (Hs : sign (String c rest) = (false, String c rest)).
    { apply orb_true_iff in E01 as [->%Ascii.eqb_eq| ->%Ascii.eqb_eq]; reflexivity. }
    assert (Hc : Str.is_digit c = true).
    { apply orb_true_iff in E01 as [->%Ascii.eqb_eq| ->%Ascii.eqb_eq]; reflexivity. }
    unfold strtod. rewrite Hs. simpl. rewrite Hc.
    destruct rest as [|c' ds]; [simpl; eauto|].
    destruct (Ascii.eqb c' ".") eqn:E'.
    + apply Ascii.eqb_eq in E' as ->. intros Hd. simpl.
      rewrite (span_digits_all _ Hd). simpl. eauto.
    + intros Hd. rewrite (span_digits_all _ Hd). simpl. eauto.
Qed.

Theorem of_str_pattern_shape m :
  pattern_shape m = true -> exists x, of_str m = Ok x.
Proof.
  intros H. pose proof (pattern_shape_numeric m H) as Hn.
  unfold of_str. rewrite (remove_underscores_numeric m "000"%char eq_refl Hn).
  rewrite (rstrip_numeric m Hn), (lstrip_numeric m Hn).
  destruct (strtod_pattern_shape m H) as [x ->]. eauto.
Qed.
End FloatText.

Section Findall.
Local Arguments String.append !_ _ / : simpl nomatch.

Lemma match_here_number s m :
  Re.match_here number_pattern s = Some m ->
  pattern_shape m = true /\ exists rest, s = m +:+ rest.
Proof.
  unfold Re.match_here.
  destruct (Re.exec number_pattern s Some) as [rest|] eqn:E; [|discriminate].
  destruct (exec_number_pattern s rest E) as (m' & -> & Hm).
  rewrite prefix_append. intros [= <-]. eauto.
Qed.

Lemma findall_from_nil r s :
  (forall pre suf, s = pre +:+ suf -> Re.match_here r suf = None) ->
  forall skip, Re.findall_from r s skip = [].
Proof.
  induction s as [|c s IH]; intros H skip; simpl.
  - rewrite (H EmptyString EmptyString eq_refl). now destruct skip.
  - assert (Hs : forall pre suf, s = pre +:+ suf -> Re.match_here r suf = None).
    { intros pre suf ->. now apply (H (String c pre)). }
    destruct skip as [|n]; [|now apply IH].
    rewrite (H EmptyString (String c s) eq_refl). now apply IH.
Qed.

Lemma findall_first r s m ms :
  Re.findall r s = m :: ms ->
  exists pre suf, s = pre +:+ suf /\ Re.match_here r suf = Some m /\
    forall pre1 suf1, s = pre1 +:+ suf1 ->
      String.length pre1 < String.length pre ->
      Re.match_here r suf1 = None.
Proof.
  unfold Re.findall. revert m ms. induction s as [|c s IH]; intros m ms; simpl.
  - destruct (Re.match_here r EmptyString) as [m'|] eqn:E; [|discriminate].
    intros [= <- <-]. exists EmptyString, EmptyString.
    split; [reflexivity|]. split; [exact E|]. simpl. lia.
  - destruct (Re.match_here r (String c s)) as [m'|] eqn:E.
    + intros [= <- <-]. exists EmptyString, (String c s).
      split; [reflexivity|]. split; [exact E|]. simpl. lia.
    + intros H. destruct (IH m ms H) as (pre & suf & -> & Hm & Hleft).
      exists (String c pre), suf. split; [reflexivity|]. split; [exact Hm|].
      intros [|c1 pre1] suf1 Heq Hlen; simpl in Heq.
      * now subst suf1.
      * injection Heq as <- Heq. apply (Hleft pre1 suf1 Heq). simpl in Hlen. lia.
Qed.

Lemma pattern_shape_restricted m :
  pattern_shape m = true ->
  exists sub rest, m = sub +:+ rest /\ restricted_shape sub = true.
Proof.
  destruct m as [|c rest]; simpl; [discriminate|].
  destruct (Ascii.eqb c ".") eqn:E.
  - intros H. exists (String c rest), EmptyString. simpl.
    rewrite append_nil_r, E. auto.
  - destruct (Ascii.eqb c "0" || Ascii.eqb c "1") eqn:E01; [|discriminate].
    intros _. exists (String c EmptyString), rest. simpl. now rewrite E, E01.
Qed.

(** Without a substring of the restricted shapes, nothing matches. *)
Lemma findall_number_nil s :
  (forall sub, substring_of sub s -> restricted_shape sub = false) ->
  Re.findall number_pattern s = [].
Proof.
  intros H. apply findall_from_nil. intros pre suf ->.
  destruct (Re.match_here number_pattern suf) as [m|] eqn:E; [exfalso|reflexivity].
  apply match_here_number in E as (Hm & rest & ->).
  apply pattern_shape_restricted in Hm as (sub & rest' & -> & Hsub).
  rewrite (H sub) in Hsub; [discriminate|].
  exists pre, (rest' +:+ rest). now rewrite append_assoc.
Qed.
End Findall.

(** ** Lists: positions and sublists *)
Section Positions.
Context {A : Type}.
Implicit Types l : list A.

Lemma lookup_pair_sublist l i j a b :
  i < j -> l !! i = Some a -> l !! j = Some b -> [a; b] `sublist_of` l.
Proof.
  revert i j. induction l as [|x l IH]; intros i j Hij Hi Hj; [discriminate|].
  destruct i as [|i].
  - injection Hi as ->. destruct j as [|j]; [lia|]. simpl in Hj.
    apply sublist_skip. apply singleton_sublist_l.
    apply list_elem_of_lookup. eauto.
  - destruct j as [|j]; [lia|]. apply sublist_cons. apply (IH i j); auto. lia.
Qed.

Lemma sublist_pair_lookup l a b :
  [a; b] `sublist_of` l ->
  exists p q, p < q /\ l !! p = Some a /\ l !! q = Some b.
Proof.
  induction l as [|x l IH]; intros H.
  - apply sublist_nil_r in H. discriminate.
  - apply sublist_cons_r in H as [H|(k & Hk & H)].
    + destruct (IH H) as (p & q & Hpq & Hp & Hq).
      exists (S p), (S q). repeat split; auto. lia.
    + injection Hk as <- <-. apply singleton_sublist_l in H.
      apply list_elem_of_lookup in H as [q Hq].
      exists 0, (S q). repeat split; auto. lia.
Qed.

Lemma StronglySorted_positions (R : A -> A -> Prop) l i j a b :
  StronglySorted R l -> i < j -> l !! i = Some a -> l !! j = Some b -> R a b.
Proof.
  intros Hs. revert i j. induction Hs as [|x l Hs IH Hx]; intros i j Hij Hi Hj;
    [discriminate|].
  destruct j as [|j]; [lia|]. simpl in Hj. destruct i as [|i].
  - injection Hi as ->. rewrite Forall_forall in Hx. apply Hx.
    apply list_elem_of_lookup. eauto.
  - apply (IH i j); auto. lia.
Qed.
Lemma sublist_pair_or l a b :
  a ∈ l -> b ∈ l -> a <> b -> [a; b] `sublist_of` l \/ [b; a] `sublist_of` l.
Proof.
  intros [i Hi]%list_elem_of_lookup [j Hj]%list_elem_of_lookup Hab.
  destruct (Nat.lt_trichotomy i j) as [H|[H|H]].
  - left. eapply lookup_pair_sublist; eauto.
  - subst j. congruence.
  - right. eapply lookup_pair_sublist; eauto.
Qed.

Lemma sublist_pair_NoDup l a b :
  NoDup l -> [a; b] `sublist_of` l -> [b; a] `sublist_of` l -> False.
Proof.
  intros Hnd (p & q & Hpq & Hp & Hq)%sublist_pair_lookup
    (p' & q' & Hpq' & Hp' & Hq')%sublist_pair_lookup.
  pose proof (NoDup_lookup _ _ _ _ Hnd Hp Hq').
  pose proof (NoDup_lookup _ _ _ _ Hnd Hq Hp'). lia.
Qed.

Lemma sublist_pair_head l a b :
  a <> b -> b ∉ l -> [a; b] `sublist_of` b :: l -> False.
Proof.
  intros Hab Hb [H|(k & [= ? ?] & _)]%sublist_cons_r; [|congruence].
  apply Hb. eapply elem_of_sublist; [|exact H]. apply list_elem_of_further, list_elem_of_here.
Qed.
End Positions.

(** ** The sort *)

Section SortFacts.
Context {A K : Type}.
Variable key : A -> K.
Variable lt : K -> K -> bool.
Variable good : K -> Prop.
Hypothesis lt_asym : forall a b, lt a b = true -> lt b a = false.
Hypothesis lt_negtrans :
  forall a b c, good c -> lt a b = true -> lt a c = true \/ lt c b = true.

Local Abbreviation insert := (ListSort.insert key lt).
Local Abbreviation sort_asc := (ListSort.sort_asc key lt).
Local Abbreviation sort := (ListSort.sort key lt).

Local Abbreviation not_gt := (ListSort.not_gt key lt).

Lemma insert_split x l :
  exists l1 l2, l = l1 ++ l2 /\ insert x l = l1 ++ x :: l2 /\
    Forall (fun y => lt (key x) (key y) = false) l1 /\
    match l2 with
    | y :: _ => lt (key x) (key y) = true
    | [] => True
    end.
Proof.
  induction l as [|y l IH]; simpl.
  - exists [], []. auto.
  - destruct (lt (key x) (key y)) eqn:E.
    + exists [], (y :: l). auto.
    + destruct IH as (l1 & l2 & -> & -> & H1 & H2).
      exists (y :: l1), l2. repeat split; auto.
Qed.

Lemma insert_perm x l : Permutation (insert x l) (x :: l).
Proof.
  destruct (insert_split x l) as (l1 & l2 & -> & -> & _).
  symmetry. apply Permutation_middle.
Qed.

Lemma sort_asc_snoc l x : sort_asc (l ++ [x]) = insert x (sort_asc l).
Proof. unfold ListSort.sort_asc. now rewrite fold_left_app. Qed.

Lemma sort_asc_perm l : Permutation (sort_asc l) l.
Proof.
  induction l as [|x l IH] using rev_ind; [reflexivity|].
  rewrite sort_asc_snoc, insert_perm, IH.
  apply Permutation_cons_append.
Qed.

Theorem sort_perm reverse l : Permutation (sort reverse l) l.
Proof.
  destruct reverse; simpl; [|apply sort_asc_perm].
  now rewrite <- Permutation_rev, sort_asc_perm, <- Permutation_rev.
Qed.

Lemma insert_sorted x l :
  Forall (fun y => good (key y)) l ->
  StronglySorted not_gt l -> StronglySorted not_gt (insert x l).
Proof.
  intros Hg Hs. induction Hs as [|y l Hs IH Hy]; simpl.
  - repeat constructor.
  - inversion Hg as [|? ? Gy Gl]; subst.
    destruct (lt (key x) (key y)) eqn:E.
    + constructor; [now constructor|].
      constructor; [now apply lt_asym|].
      rewrite Forall_forall in Hy |- *. intros z Hz. specialize (Hy z Hz).
      unfold ListSort.not_gt in *. destruct (lt (key z) (key x)) eqn:E'; [|reflexivity].
      destruct (lt_negtrans _ _ (key y) Gy E') as [F|F]; [congruence|].
      apply lt_asym in E. congruence.
    + constructor; [auto|].
      eapply Permutation_Forall; [symmetry; apply insert_perm|].
      constructor; auto.
Qed.

Lemma sort_asc_sorted l :
  Forall (fun y => good (key y)) l -> StronglySorted not_gt (sort_asc l).
Proof.
  induction l as [|x l IH] using rev_ind; intros Hg; [constructor|].
  rewrite sort_asc_snoc. apply Forall_app in Hg as [Hg _].
  apply insert_sorted; [|auto].
  eapply Permutation_Forall; [symmetry; apply sort_asc_perm|]. exact Hg.
Qed.

(** Stability *)

Lemma insert_keeps_order x l k : k `sublist_of` l -> k `sublist_of` insert x l.
Proof.
  destruct (insert_split x l) as (l1 & l2 & -> & -> & _). intros H.
  etrans; [exact H|]. apply sublist_app; [reflexivity|]. now apply sublist_cons.
Qed.

Lemma insert_behind x a l :
  Forall (fun y => good (key y)) l -> StronglySorted not_gt l ->
  a ∈ l -> lt (key x) (key a) = false ->
  [a; x] `sublist_of` insert x l.
Proof.
  intros Hg Hs Ha Hxa.
  destruct (insert_split x l) as (l1 & l2 & -> & -> & H1 & H2).
  assert (Hin : a ∈ l1).
  { apply elem_of_app in Ha as [Ha|Ha]; [exact Ha|exfalso].
    destruct l2 as [|y l2]; [inversion Ha|].
    apply StronglySorted_app_1_r in Hs.
    apply elem_of_cons in Ha as [->|Ha]; [congruence|].
    inversion Hs as [|? ? _ Hy]; subst.
    rewrite Forall_forall in Hy. specialize (Hy a Ha). unfold ListSort.not_gt in Hy.
    apply Forall_app in Hg as [_ Hg]. rewrite Forall_forall in Hg.
    destruct (lt_negtrans _ _ (key a) (Hg a (list_elem_of_further _ _ _ Ha)) H2); congruence. }
  change [a; x] with ([a] ++ [x]).
  apply sublist_app; [now apply singleton_sublist_l|].
  apply sublist_skip, sublist_nil_l.
Qed.

Lemma sublist_pair_snoc (a b x : A) l :
  [a; b] `sublist_of` l ++ [x] -> [a; b] `sublist_of` l \/ (a ∈ l /\ b = x).
Proof.
  intros H. apply sublist_app_r in H as (k1 & k2 & Hk & H1 & H2).
  apply sublist_cons_r in H2 as [H2|(k' & -> & H2)].
  - apply sublist_nil_r in H2 as ->. rewrite app_nil_r in Hk. subst k1. now left.
  - apply sublist_nil_r in H2 as ->. right.
    change [a; b] with ([a] ++ [b]) in Hk.
    apply app_inj_tail in Hk as [<- ->].
    split; [|reflexivity]. now apply singleton_sublist_l.
Qed.

Lemma sort_asc_stable l a b :
  Forall (fun y => good (key y)) l ->
  [a; b] `sublist_of` l -> lt (key b) (key a) = false ->
  [a; b] `sublist_of` sort_asc l.
Proof.
  induction l as [|x l IH] using rev_ind; intros Hg Hab Hlt.
  - apply sublist_nil_r in Hab. discriminate.
  - rewrite sort_asc_snoc. apply Forall_app in Hg as [Hg _].
    apply sublist_pair_snoc in Hab as [Hab|[Ha ->]].
    + apply insert_keeps_order, IH; auto.
    + apply insert_behind; auto.
      * eapply Permutation_Forall; [symmetry; apply sort_asc_perm|]. exact Hg.
      * now apply sort_asc_sorted.
      * now rewrite sort_asc_perm.
Qed.

(** [sort] with [reverse = true]: descending, and still stable. *)

Theorem sort_reverse_sorted l :
  Forall (fun y => good (key y)) l ->
  StronglySorted (fun a b => lt (key a) (key b) = false) (sort true l).
Proof.
  intros Hg. simpl.
  assert (Hs : StronglySorted not_gt (sort_asc (rev l))).
  { apply sort_asc_sorted. now apply Forall_rev. }
  induction Hs as [|y k Hs IH Hy]; simpl; [constructor|].
  apply StronglySorted_app_2; [|exact IH|repeat constructor].
  intros x1 x2 Hx1 Hx2. apply list_elem_of_singleton in Hx2 as ->.
  rewrite Forall_forall in Hy. apply Hy.
  apply list_elem_of_In. apply in_rev. now apply list_elem_of_In.
Qed.

Lemma sublist_rev (k l : list A) : k `sublist_of` l -> rev k `sublist_of` rev l.
Proof.
  induction 1; simpl.
  - constructor.
  - apply sublist_app; [assumption|reflexivity].
  - apply sublist_inserts_r. assumption.
Qed.

Theorem sort_reverse_stable l a b :
  Forall (fun y => good (key y)) l ->
  [a; b] `sublist_of` l -> lt (key a) (key b) = false ->
  [a; b] `sublist_of` sort true l.
Proof.
  intros Hg Hab Hlt. simpl.
  change [a; b] with (rev [b; a]). apply sublist_rev.
  apply sort_asc_stable; [now apply Forall_rev| |exact Hlt].
  change [b; a] with (rev [a; b]). now apply sublist_rev.
Qed.
(** The model of [sort] with [reverse = true] meets the contract. *)
Theorem sort_reverse_stable_desc l :
  Forall (fun y => good (key y)) l ->
  ListSort.stable_desc key lt l (sort true l).
Proof.
  intros Hg. split; [apply sort_perm|]. split; [now apply sort_reverse_sorted|].
  intros a b [Hab _] Hsub. now apply sort_reverse_stable.
Qed.
End SortFacts.

Section Unique.
Context {A K : Type}.
Variable key : A -> K.
Variable lt : K -> K -> bool.

Local Abbreviation desc := (fun a b : A => lt (key a) (key b) = false).
Local Abbreviation tie := (fun a b : A =>
  lt (key a) (key b) = false /\ lt (key b) (key a) = false).

(** Two descending lists with the same elements, none twice, that order
    elements with equal keys alike, are equal. *)
Lemma sorted_agree_eq l1 :
  forall l2,
    NoDup l1 -> Permutation l1 l2 ->
    StronglySorted desc l1 -> StronglySorted desc l2 ->
    (forall a b, tie a b -> [a; b] `sublist_of` l1 -> [a; b] `sublist_of` l2) ->
    l1 = l2.
Proof.
  induction l1 as [|x t1 IH]; intros l2 Hnd Hperm Hs1 Hs2 Hagree.
  - now apply Permutation_nil in Hperm.
  - destruct l2 as [|y t2].
    { symmetry in Hperm. now apply Permutation_nil in Hperm. }
    assert (Hnd2 : NoDup (y :: t2)) by now rewrite <- Hperm.
    apply NoDup_cons in Hnd as [Hx Hnd1]. apply NoDup_cons in Hnd2 as [Hy Hnd2].
    apply StronglySorted_inv in Hs1 as [Hs1 Hx1].
    apply StronglySorted_inv in Hs2 as [Hs2 Hy2].
    assert (x = y) as <-.
    { assert (Hyin : y ∈ x :: t1) by (rewrite Hperm; left).
      apply elem_of_cons in Hyin as [->|Hyin]; [reflexivity|].
      assert (Hxin : x ∈ y :: t2) by (rewrite <- Hperm; left).
      apply elem_of_cons in Hxin as [->|Hxin]; [reflexivity|].
      rewrite Forall_forall in Hx1, Hy2.
      assert (Hxy : [x; y] `sublist_of` y :: t2).
      { apply Hagree; [split; auto|].
        apply sublist_skip. now apply singleton_sublist_l. }
      apply sublist_cons_r in Hxy as [Hxy|(k & [= -> _] & _)]; [|reflexivity].
      exfalso. apply Hy. eapply elem_of_sublist; [|exact Hxy].
      apply list_elem_of_further, list_elem_of_here. }
    f_equal. apply IH; auto.
    + now apply Permutation_cons_inv in Hperm.
    + intros a b Htie Hab.
      assert (Hab' : [a; b] `sublist_of` x :: t2)
        by (apply Hagree; [exact Htie|now apply sublist_cons]).
      apply sublist_cons_r in Hab' as [Hab'|(k & [= -> _] & _)]; [exact Hab'|].
      exfalso. apply Hx. eapply elem_of_sublist; [|exact Hab].
      apply list_elem_of_here.
Qed.

Local Abbreviation stable_desc := (ListSort.stable_desc key lt).

(** The contract determines the result: a list without duplicates has one
    stable descending sort. *)
Theorem stable_desc_unique l l1 l2 :
  NoDup l -> stable_desc l l1 -> stable_desc l l2 -> l1 = l2.
Proof.
  intros Hnd (Hp1 & Hs1 & Hst1) (Hp2 & Hs2 & Hst2).
  assert (Hnd1 : NoDup l1) by now rewrite Hp1.
  apply sorted_agree_eq; auto.
  - now rewrite Hp1, Hp2.
  - intros a b Htie Hab.
    assert (Hne : a <> b).
    { intros ->. apply sublist_pair_lookup in Hab as (p & q & Hpq & Hp & Hq).
      pose proof (NoDup_lookup _ _ _ _ Hnd1 Hp Hq). lia. }
    destruct (sublist_pair_or l a b) as [H|H]; auto.
    + rewrite <- Hp1. eapply elem_of_sublist; [|exact Hab].
      apply list_elem_of_here.
    + rewrite <- Hp1. eapply elem_of_sublist; [|exact Hab].
      apply list_elem_of_further, list_elem_of_here.
    + exfalso. apply (sublist_pair_NoDup l1 a b Hnd1 Hab).
      apply Hst1; [|exact H]. destruct Htie. split; auto.
Qed.
End Unique.

(** ** Scoring one document, scoring them all *)

Lemma parse_score_in_unit content s :
  parse_score content = Ok s -> in_unit s = true.
Proof.
  unfold parse_score. intros H.
  destruct (of_str content) as [x|e].
  - inversion H. apply clamp_in_unit.
  - destruct (is_ValueError e); [|discriminate].
    destruct (Re.findall number_pattern content) as [|n0 ?].
    + now inversion H.
    + destruct (of_str n0); inversion H. apply clamp_in_unit.
Qed.

Section Loop.
Variable server : list request -> request -> reply.
Variable self : config.

Lemma score_relevance_spec query document w :
  exists s,
    _score_relevance server self query document w =
      (Ok s, {| heap := heap w;
                sent := sent w ++ [scoring_request self query document] |}) /\
    in_unit s = true.
Proof.
  unfold _score_relevance, try_except, bind, fetch_content, bind, post, lift, ret.
  fold (scoring_request self query document).
  destruct (server (sent w) _) as [e|status body]; [now exists half|].
  destruct (raise_for_status status); [|now exists half].
  destruct (response_json body) as [j|]; [|now exists half].
  destruct (reply_content j) as [c|]; [|now exists half].
  destruct (parse_score c) as [s|] eqn:E; [|now exists half].
  exists s. split; [reflexivity|]. eapply parse_score_in_unit; eauto.
Qed.

Lemma doc_entries_text h d :
  is_Some (doc_entries h d) -> is_Some (doc_text h d).
Proof.
  unfold doc_entries, doc_text.
  destruct (h !! d) as [[| |t md]|]; intros [e He]; try discriminate; eauto.
Qed.

Lemma doc_text_mono h h' d t :
  h ⊆ h' -> doc_text h d = Some t -> doc_text h' d = Some t.
Proof.
  unfold doc_text. intros Hsub H.
  destruct (h !! d) as [o|] eqn:E; [|discriminate].
  now rewrite (lookup_weaken _ _ _ _ E Hsub).
Qed.

Lemma doc_entries_mono h h' d e :
  h ⊆ h' -> doc_entries h d = Some e -> doc_entries h' d = Some e.
Proof.
  unfold doc_entries. intros Hsub H.
  destruct (h !! d) as [o|] eqn:E; [|discriminate].
  rewrite (lookup_weaken _ _ _ _ E Hsub).
  destruct o as [| |t [m|]]; try discriminate; [|exact H].
  destruct (h !! m) as [o|] eqn:E'; [|discriminate].
  now rewrite (lookup_weaken _ _ _ _ E' Hsub).
Qed.

Lemma valid_docs_mono h h' docs :
  h ⊆ h' -> valid_docs h docs -> valid_docs h' docs.
Proof.
  intros Hsub Hv. eapply Forall_impl; [exact Hv|]. intros d [e He]. exists e.
  eapply doc_entries_mono; eauto.
Qed.

Lemma lookup_None_mono (h h' : gmap loc object) l :
  h ⊆ h' -> h' !! l = None -> h !! l = None.
Proof.
  intros Hsub H. destruct (h !! l) eqn:E; [|reflexivity].
  rewrite (lookup_weaken _ _ _ _ E Hsub) in H. discriminate.
Qed.

Lemma scored_copy_mono h0 h1 h' d p :
  h0 ⊆ h1 -> is_Some (doc_entries h0 d) ->
  scored_copy h1 h' d p -> scored_copy h0 h' d p.
Proof.
  intros Hsub [e0 He0] (t & e & m & Ht & He & Hp & Hm & Hp' & Hm' & Hu).
  destruct (doc_entries_text h0 d) as [t0 Ht0]; [eauto|].
  rewrite (doc_text_mono _ _ _ _ Hsub Ht0) in Ht.
  rewrite (doc_entries_mono _ _ _ _ Hsub He0) in He.
  inversion Ht; inversion He; subst.
  exists t, e, m. repeat split; eauto using lookup_None_mono.
Qed.

Lemma scored_copies_mono h0 h1 h' docs scored :
  h0 ⊆ h1 -> valid_docs h0 docs ->
  Forall2 (scored_copy h1 h') docs scored ->
  Forall2 (scored_copy h0 h') docs scored.
Proof.
  intros Hsub Hv H. induction H as [|d p docs scored Hd _ IH]; [constructor|].
  inversion Hv; subst. constructor; [|auto].
  eapply scored_copy_mono; eauto.
Qed.

Lemma get_text_ok w d t :
  doc_text (heap w) d = Some t -> get_text d w = (Ok t, w).
Proof.
  unfold doc_text, get_text.
  destruct (heap w !! d) as [[| |? ?]|]; intros H; inversion H; reflexivity.
Qed.

Lemma get_entries_ok w d e :
  doc_entries (heap w) d = Some e ->
  exists md, get_metadata d w = (Ok md, w) /\
             entries_or_empty md w = (Ok e, w).
Proof.
  unfold doc_entries, get_metadata.
  destruct (heap w !! d) as [[| |t [m|]]|]; intros H; try discriminate.
  - exists (Some m). split; [reflexivity|]. simpl.
    destruct (heap w !! m) as [[| |]|]; inversion H; reflexivity.
  - exists None. inversion H. split; reflexivity.
Qed.

Lemma score_loop_spec query docs :
  forall acc w,
    valid_docs (heap w) docs ->
    exists scored w',
      score_loop server self query docs acc w = (Ok (acc ++ scored), w') /\
      heap w ⊆ heap w' /\
      sent w' = sent w ++
        map (fun d => scoring_request self query
               (_truncate_text self (default EmptyString (doc_text (heap w) d))))
            docs /\
      Forall2 (scored_copy (heap w) (heap w')) docs scored /\
      NoDup (scored.*2).
Proof.
  induction docs as [|d rest IH]; intros acc w Hv.
  - exists [], w. simpl. rewrite !app_nil_r. repeat split; auto. constructor.
  - inversion Hv as [|? ? Hd Hrest]; subst.
    destruct (doc_entries_text _ _ Hd) as [t Ht]. destruct Hd as [e He].
    destruct (score_relevance_spec query (_truncate_text self t) w)
      as (s & Hs & Hu).
    set (w1 := {| heap := heap w;
                  sent := sent w ++ [scoring_request self query (_truncate_text self t)] |}) in *.
    destruct (get_entries_ok w1 d e He) as (md & Hmd & Hen).
    set (m := fresh (dom (heap w))).
    set (h2 := <[m := ODict (<["rerank_score" := VFloat s]> e)]> (heap w)).
    set (n := fresh (dom h2)).
    set (h3 := <[n := ODocument t (Some m)]> h2).
    assert (Hm : heap w !! m = None) by (apply not_elem_of_dom, is_fresh).
    assert (Hn : h2 !! n = None) by (apply not_elem_of_dom, is_fresh).
    assert (H02 : heap w ⊆ h2) by (now apply insert_subseteq).
    assert (H23 : h2 ⊆ h3) by (now apply insert_subseteq).
    assert (H03 : heap w ⊆ h3) by (etrans; eauto).
    destruct (IH (acc ++ [(s, n)]) {| heap := h3; sent := sent w1 |})
      as (scored & w' & Hrun & Hsub & Hsent & Hcopies & Hnd).
    { eapply valid_docs_mono; eauto. }
    simpl in *.
    exists ((s, n) :: scored), w'. repeat split.
    + unfold bind. rewrite (get_text_ok w d t Ht), Hs.
      rewrite (get_text_ok w1 d t Ht), Hmd, Hen. simpl.
      fold m. fold h2. fold n. fold h3.
      rewrite Hrun. now rewrite <- app_assoc.
    + etrans; eauto.
    + rewrite Hsent, Ht. simpl. rewrite <- app_assoc. simpl. do 2 f_equal.
      apply map_ext_Forall. eapply Forall_impl; [exact Hrest|].
      intros d' Hd'. simpl.
      destruct (doc_entries_text _ _ Hd') as [t' Ht'].
      now rewrite Ht', (doc_text_mono _ _ _ _ H03 Ht').
    + constructor.
      * exists t, e, m. simpl.
        split; [exact Ht|]. split; [exact He|].
        split; [exact (lookup_None_mono _ _ _ H02 Hn)|]. split; [exact Hm|].
        split; [|split; [|exact Hu]].
        -- eapply lookup_weaken; [|exact Hsub]. apply lookup_insert_eq.
        -- eapply lookup_weaken; [|exact Hsub].
           eapply lookup_weaken; [|exact H23]. apply lookup_insert_eq.
      * eapply scored_copies_mono; eauto.
    + constructor; [|exact Hnd].
      intros Hin. apply list_elem_of_fmap in Hin as ([s' n'] & Heq & Hin).
      simpl in Heq. subst n'.
      apply list_elem_of_lookup in Hin as [i Hi].
      destruct (Forall2_lookup_r _ _ _ _ _ Hcopies Hi)
        as (d' & _ & (? & ? & ? & _ & _ & Hfresh & _)).
      simpl in Hfresh. unfold h3 in Hfresh.
      rewrite lookup_insert_eq in Hfresh. discriminate.
Qed.
End Loop.

(** ** Positions in lists, and what [run] returns *)

Lemma in_unit_not_nan x : in_unit x = true -> is_nan x = false.
Proof. now destruct x. Qed.

Lemma ltb_false_leb a b :
  is_nan a = false -> is_nan b = false -> ltb a b = false -> leb b a = true.
Proof.
  unfold ltb, leb, SFltb, SFleb.
  destruct a as [sa|sa| |sa ma ea], b as [sb|sb| |sb mb eb]; simpl;
    try destruct sa; try destruct sb; simpl; try congruence; intros _ _.
  all: rewrite (Z.compare_antisym ea eb); destruct (ea ?= eb)%Z; simpl; try congruence.
  all: change (Pos.compare_cont Eq) with Pos.compare;
    rewrite (Pos.compare_antisym ma mb); destruct (ma ?= mb)%positive; simpl; congruence.
Qed.

Lemma feq_ltb a b : feq a b = true -> ltb a b = false.
Proof.
  unfold feq, ltb, SFeqb, SFltb. now destruct (SFcompare a b) as [[]|].
Qed.


Section Run.
Variable server : list request -> request -> reply.
Variable self : config.

Local Abbreviation sorted_by_score := (ListSort.sort fst Float.ltb true).

(** What [run] returns on a well-formed input, in terms of its loop. *)
Lemma run_spec query docs w :
  valid_docs (heap w) docs ->
  exists scored w',
    score_loop server self query docs [] w = (Ok scored, w') /\
    run server self query docs w = (Ok (sorted_by_score scored).*2, w') /\
    heap w ⊆ heap w' /\
    sent w' = sent w ++
      map (fun d => scoring_request self query
             (_truncate_text self (default EmptyString (doc_text (heap w) d))))
          docs /\
    Forall2 (scored_copy (heap w) (heap w')) docs scored /\
    NoDup (scored.*2).
Proof.
  intros Hv.
  destruct (score_loop_spec server self query docs [] w Hv)
    as (scored & w' & Hloop & Hrest).
  simpl in Hloop. exists scored, w'. split; [exact Hloop|]. split; [|exact Hrest].
  destruct docs as [|d docs].
  - simpl in Hloop. injection Hloop as <- <-. reflexivity.
  - unfold run, bind. now rewrite Hloop.
Qed.

Lemma scores_in_unit h h' docs (scored : list (float * loc)) :
  Forall2 (scored_copy h h') docs scored ->
  Forall (fun p => is_nan p.1 = false) scored.
Proof.
  intros H. apply Forall2_Forall_r with (P := scored_copy h h') (l := docs) ; [exact H|].
  apply Forall_forall. intros d _ p (? & ? & ? & _ & _ & _ & _ & _ & _ & Hu).
  now apply in_unit_not_nan.
Qed.

Lemma sorted_perm (scored : list (float * loc)) :
  Permutation (sorted_by_score scored) scored.
Proof. apply sort_perm. Qed.

Lemma sorted_desc (scored : list (float * loc)) :
  Forall (fun p => is_nan p.1 = false) scored ->
  StronglySorted (fun a b => Float.ltb a.1 b.1 = false) (sorted_by_score scored).
Proof.
  apply (sort_reverse_sorted fst Float.ltb (fun x => is_nan x = false));
    [exact ltb_asym|exact ltb_negtrans].
Qed.

Lemma sorted_stable (scored : list (float * loc)) a b :
  Forall (fun p => is_nan p.1 = false) scored ->
  [a; b] `sublist_of` scored -> Float.ltb a.1 b.1 = false ->
  [a; b] `sublist_of` sorted_by_score scored.
Proof.
  apply (sort_reverse_stable fst Float.ltb (fun x => is_nan x = false));
    [exact ltb_asym|exact ltb_negtrans].
Qed.

(** Any sort that meets the contract of [list.sort] returns what the model
    returns. *)
Lemma sorted_unique (scored l' : list (float * loc)) :
  NoDup scored ->
  Forall (fun p => is_nan p.1 = false) scored ->
  ListSort.stable_desc fst Float.ltb scored l' ->
  l' = sorted_by_score scored.
Proof.
  intros Hnd Hg Hl'. apply (stable_desc_unique fst Float.ltb scored); auto.
  apply (sort_reverse_stable_desc fst Float.ltb (fun x => is_nan x = false));
    [exact ltb_asym|exact ltb_negtrans|exact Hg].
Qed.

(** Reading a scored copy back from the heap. *)
Lemma scored_copy_read h h' d p :
  scored_copy h h' d p ->
  doc_text h' p.2 = doc_text h d /\
  doc_score h' p.2 = Some p.1 /\
  doc_content h' p.2 = doc_content h d /\
  in_unit p.1 = true.
Proof.
  intros (t & e & m & Ht & He & _ & _ & Hp & Hm & Hu).
  unfold doc_content, doc_score, doc_entries, doc_text in *.
  rewrite Hp, Hm.
  destruct (h !! d) as [[| |t' md]|]; try discriminate.
  injection Ht as ->. rewrite He, lookup_insert_eq, delete_insert_eq. auto.
Qed.
End Run.

(** ** More on the pattern and on [parse_score] *)

Lemma length_prefix n s :
  String.length (Str.prefix n s) = Nat.min n (String.length s).
Proof.
  revert s. induction n as [|n IH]; intros [|c s]; simpl; auto.
Qed.

Lemma prefix_all s : Str.prefix (String.length s) s = s.
Proof. induction s; simpl; congruence. Qed.

Lemma lstrip_all_digits s :
  all_digits s = true -> Str.lstrip Str.is_digit s = EmptyString.
Proof.
  induction s as [|c s IH]; simpl; [reflexivity|].
  intros [-> H]%andb_true_iff. auto.
Qed.

(** Every string of the shapes of the pattern is matched as a whole. *)
Lemma pattern_shape_matches m :
  pattern_shape m = true -> Re.match_here number_pattern m = Some m.
Proof.
  intros H. unfold Re.match_here.
  assert (E : Re.exec number_pattern m Some = Some EmptyString).
  { unfold number_pattern. simpl. unfold Re.one. simpl.
    destruct m as [|c rest]; [discriminate|]. simpl in H.
    destruct (Ascii.eqb c ".") eqn:E1.
    - apply Ascii.eqb_eq in E1 as ->. simpl.
      destruct rest as [|d ds]; [discriminate|]. simpl in H.
      apply andb_true_iff in H as [Hd Hds]. rewrite Hd, star_digit.
      now rewrite (lstrip_all_digits ds Hds).
    - destruct (Ascii.eqb c "0") eqn:E0.
      + apply Ascii.eqb_eq in E0 as ->. simpl in *.
        destruct rest as [|c' ds]; [reflexivity|].
        destruct (Ascii.eqb c' ".") eqn:E2.
        * apply Ascii.eqb_eq in E2 as ->. rewrite !star_digit.
          rewrite (lstrip_all_digits ds H).
          destruct ds as [|d ds']; [reflexivity|]. simpl in H.
          apply andb_true_iff in H as [Hd Hds]. rewrite Hd, star_digit.
          now rewrite (lstrip_all_digits ds' Hds).
        * rewrite star_digit. now rewrite (lstrip_all_digits _ H).
      + simpl in *. destruct (Ascii.eqb c "1") eqn:E3; [|discriminate]. simpl.
        destruct rest as [|c' ds]; [reflexivity|].
        destruct (Ascii.eqb c' ".") eqn:E2.
        * rewrite star_digit. now rewrite (lstrip_all_digits ds H).
        * rewrite star_digit. now rewrite (lstrip_all_digits _ H). }
  rewrite E. simpl. now rewrite Nat.sub_0_r, prefix_all.
Qed.

Lemma restricted_is_pattern s :
  restricted_shape s = true -> pattern_shape s = true.
Proof.
  destruct s as [|c rest]; simpl; [discriminate|].
  destruct (Ascii.eqb c "."); [auto|].
  destruct (Ascii.eqb c "0" || Ascii.eqb c "1"); [|discriminate].
  destruct rest as [|c' ds]; [reflexivity|].
  intros [[-> _]%andb_true_iff H]%andb_true_iff. exact H.
Qed.

Lemma of_str_raises s e : of_str s = Raise e -> e = ValueError.
Proof.
  unfold of_str. destruct (remove_underscores _ s); [|now intros [= <-]].
  destruct (strtod _) as [[x [|? ?]]|]; try discriminate; try (now intros [= <-]).
  destruct (parse_inf_or_nan _) as [[x [|? ?]]|]; try discriminate; now intros [= <-].
Qed.

Lemma findall_number_first content m ms :
  Re.findall number_pattern content = m :: ms ->
  pattern_shape m = true /\
  exists pre post,
    content = pre +:+ m +:+ post /\
    Re.match_here number_pattern (m +:+ post) = Some m /\
    forall pre1 suf1, content = pre1 +:+ suf1 ->
      String.length pre1 < String.length pre ->
      Re.match_here number_pattern suf1 = None.
Proof.
  intros H. destruct (findall_first _ _ _ _ H) as (pre & suf & -> & Hm & Hleft).
  destruct (match_here_number _ _ Hm) as (Hshape & post & ->).
  split; [exact Hshape|]. exists pre, post. auto.
Qed.

(** The three ways of [parse_score]. *)
Lemma parse_score_paths content :
  exists s,
    parse_score content = Ok s /\ in_unit s = true /\
    match of_str content with
    | Ok x => s = py_max zero (py_min one x)
    | Raise _ =>
        match Re.findall number_pattern content with
        | m :: _ => exists x, of_str m = Ok x /\ s = py_max zero (py_min one x)
        | [] => s = half
        end
    end.
Proof.
  unfold parse_score. destruct (of_str content) as [x|e] eqn:E.
  - eexists. split; [reflexivity|]. split; [apply clamp_in_unit|reflexivity].
  - apply of_str_raises in E as ->. simpl.
    destruct (Re.findall number_pattern content) as [|m ms] eqn:F.
    + exists half. auto.
    + destruct (findall_number_first _ _ _ F) as [Hshape _].
      destruct (of_str_pattern_shape m Hshape) as [x Hx]. rewrite Hx.
      eexists. split; [reflexivity|]. split; [apply clamp_in_unit|eauto].
Qed.

Section Scoring.
Variable server : list request -> request -> reply.
Variable self : config.

(** [_score_relevance] in terms of the two halves of its [try]. *)
Lemma score_relevance_unfold query document w :
  _score_relevance server self query document w =
    match fetch_content server self
            (r_json (scoring_request self query document)) w with
    | (Ok content, w') =>
        (match parse_score content with
         | Ok s => Ok s
         | Raise _ => Ok half
         end, w')
    | (Raise _, w') => (Ok half, w')
    end.
Proof.
  unfold _score_relevance, try_except, bind, lift, ret. simpl.
  destruct (fetch_content _ _ _ w) as [[content|e] w']; [|reflexivity].
  now destruct (parse_score content).
Qed.

Lemma fetch_content_failure query document w :
  http_failure (server (sent w) (scoring_request self query document)) ->
  exists e,
    fetch_content server self (r_json (scoring_request self query document)) w =
      (Raise e, {| heap := heap w;
                   sent := sent w ++ [scoring_request self query document] |}).
Proof.
  unfold fetch_content, bind, post, lift. simpl.
  fold (scoring_request self query document).
  destruct (server (sent w) _) as [e|status body]; simpl; [eauto|].
  unfold raise_for_status.
  destruct ((400 <=? status)%Z && (status <? 600)%Z) eqn:E; [eauto|].
  intros [H|H]; [lia|].
  destruct body as [j|]; simpl; [|eauto].
  destruct H as [e ->]. eauto.
Qed.
End Scoring.

(** ** The example is well formed *)

Lemma example_valid : valid_docs (heap example_world) example_docs.
Proof. repeat constructor; vm_compute; eauto. Qed.

(** Every document of the output is the scored copy of a document of the
    input. *)
Lemma out_scored_copy docs (w : world) scored (w' : world) :
  Forall2 (scored_copy (heap w) (heap w')) docs scored ->
  forall i n, (ListSort.sort fst Float.ltb true scored).*2 !! i = Some n ->
    exists s d, (s, n) ∈ scored /\ d ∈ docs /\
      (ListSort.sort fst Float.ltb true scored) !! i = Some (s, n) /\
      scored_copy (heap w) (heap w') d (s, n).
Proof.
  intros Hcopies i n Hi.
  apply list_lookup_fmap_Some in Hi as ([s n'] & Hn & Hi). simpl in Hn. subst n'.
  assert (Hin : (s, n) ∈ scored).
  { rewrite <- (sorted_perm scored). apply list_elem_of_lookup. eauto. }
  apply list_elem_of_lookup in Hin as [k Hk].
  destruct (Forall2_lookup_r _ _ _ _ _ Hcopies Hk) as (d & Hd & Hcopy).
  exists s, d. repeat split; auto.
  - apply list_elem_of_lookup. eauto.
  - apply list_elem_of_lookup. eauto.
Qed.

(** The output is as long as the input, every document of it carries its
    score, and the scores do not increase along it. *)
Lemma out_length docs (w : world) scored (w' : world) :
  Forall2 (scored_copy (heap w) (heap w')) docs scored ->
  length (ListSort.sort fst Float.ltb true scored).*2 = length docs.
Proof.
  intros Hcopies. rewrite length_fmap, (Permutation_length (sorted_perm scored)).
  symmetry. eapply Forall2_length; eauto.
Qed.

Lemma out_scored docs (w : world) scored (w' : world) :
  Forall2 (scored_copy (heap w) (heap w')) docs scored ->
  Forall (fun d => exists s, doc_score (heap w') d = Some s /\ in_unit s = true)
         (ListSort.sort fst Float.ltb true scored).*2.
Proof.
  intros Hcopies. apply Forall_lookup. intros i n Hi.
  destruct (out_scored_copy docs w scored w' Hcopies i n Hi)
    as (s & d & _ & _ & _ & Hc).
  apply scored_copy_read in Hc as (_ & Hs & _ & Hu). eauto.
Qed.

Lemma out_descending docs (w : world) scored (w' : world) :
  Forall2 (scored_copy (heap w) (heap w')) docs scored ->
  forall i j di dj,
    i < j ->
    (ListSort.sort fst Float.ltb true scored).*2 !! i = Some di ->
    (ListSort.sort fst Float.ltb true scored).*2 !! j = Some dj ->
    exists si sj,
      doc_score (heap w') di = Some si /\
      doc_score (heap w') dj = Some sj /\
      Float.leb sj si = true.
Proof.
  intros Hcopies i j di dj Hij Hi Hj.
  destruct (out_scored_copy docs w scored w' Hcopies i di Hi)
    as (si & d1 & _ & _ & Hsi & Hc1).
  destruct (out_scored_copy docs w scored w' Hcopies j dj Hj)
    as (sj & d2 & _ & _ & Hsj & Hc2).
  apply scored_copy_read in Hc1 as (_ & Hs1 & _ & Hu1).
  apply scored_copy_read in Hc2 as (_ & Hs2 & _ & Hu2).
  exists si, sj. split; [exact Hs1|]. split; [exact Hs2|].
  pose proof (sorted_desc scored (scores_in_unit _ _ _ _ Hcopies)) as Hsorted.
  pose proof (StronglySorted_positions _ _ _ _ _ _ Hsorted Hij Hsi Hsj) as Hlt.
  simpl in *. apply ltb_false_leb; auto using in_unit_not_nan.
Qed.

(** ** The model at work *)

(** Decimal text is rounded to the nearest binary64 value. *)
Example of_str_decimal :
  of_str "0.1" = Ok (S754_finite false 7205759403792794 (-56)) /\
  of_str "0.95" = Ok (S754_finite false 8556839292003942 (-53)) /\
  of_str "1" = Ok one /\ of_str "1.0" = Ok one /\ of_str ".5" = Ok half /\
  of_str "4.9e-324" = Ok (S754_finite false 1 (-1074)) /\
  of_str "1.7976931348623157e308" = Ok (S754_finite false 9007199254740991 971).
Proof. repeat split; vm_compute; reflexivity. Qed.

Example of_str_special :
  of_str "nan" = Ok S754_nan /\
  of_str "-Infinity" = Ok (S754_infinity true) /\
  of_str "1e400" = Ok (S754_infinity false) /\
  of_str "1.7976931348623159e308" = Ok (S754_infinity false) /\
  of_str "-1e-400" = Ok (S754_zero true) /\
  of_str "1_0" = of_str "10" /\
  of_str "1_" = Raise ValueError /\ of_str "1e" = Raise ValueError /\
  of_str "." = Raise ValueError /\ of_str "" = Raise ValueError /\
  of_str "0x10" = Raise ValueError.
Proof. repeat split; vm_compute; reflexivity. Qed.

(** NaN and the infinities are clamped like any other value. *)
Example parse_score_special :
  parse_score "nan" = Ok one /\ parse_score "inf" = Ok one /\
  parse_score "-inf" = Ok zero /\ parse_score "-0.0" = Ok zero /\
  parse_score "7" = Ok one /\ parse_score "-3" = Ok zero.
Proof. repeat split; vm_compute; reflexivity. Qed.

Example parse_score_fallback :
  parse_score "Definitely relevant!" = Ok half /\
  parse_score "Score: 0.75" = of_str "0.75" /\
  parse_score "about .5, maybe" = Ok half /\
  parse_score "25%" = Ok half /\
  parse_score "15%" = Ok one.
Proof. repeat split; vm_compute; reflexivity. Qed.

Example findall_number :
  Re.findall number_pattern "x02 a 0.75b .5 1. 15 21 0.x 7"
    = ["02"; "0.75"; ".5"; "1."; "15"; "1"; "0."].
Proof. vm_compute. reflexivity. Qed.

Example run_orders_by_score :
  texts_of (run (stub_server [Response 200 (Some (chat_body "0.1"));
                              Response 200 (Some (chat_body "0.95"))])
              default_config "capital of France"
              [2%positive; 1%positive] example_world)
    = [Some "Paris is the capital of France."; Some "Bananas are yellow."].
Proof. vm_compute. reflexivity. Qed.

(** When every call fails the input order is kept. *)
Example run_keeps_order_on_failure :
  texts_of (run (stub_server []) default_config "capital of France"
              [2%positive; 1%positive] example_world)
    = [Some "Bananas are yellow."; Some "Paris is the capital of France."].
Proof. vm_compute. reflexivity. Qed.

(** * The claims *)

(** C1. For every query and every well-formed list of documents, [run]
    returns a permutation of its input: the output is as long as the input,
    and the texts of the output documents are the texts of the input
    documents, each as often as in the input; the same holds of the contents
    (the text with the metadata entries other than the score).  No document
    is added or dropped. *)
Theorem run_permutation server self query docs w :
  valid_docs (heap w) docs ->
  exists out w',
    run server self query docs w = (Ok out, w') /\
    length out = length docs /\
    Permutation (map (doc_text (heap w')) out) (map (doc_text (heap w)) docs) /\
    Permutation (map (doc_content (heap w')) out)
                (map (doc_content (heap w)) docs).
Proof.
  intros Hv.
  destruct (run_spec server self query docs w Hv)
    as (scored & w' & _ & Hrun & _ & _ & Hcopies & _).
  exists (ListSort.sort fst Float.ltb true scored).*2, w'.
  split; [exact Hrun|].
  pose proof (sorted_perm scored) as Hperm.
  assert (Htext : map (doc_text (heap w')) scored.*2 = map (doc_text (heap w)) docs
          /\ map (doc_content (heap w')) scored.*2 = map (doc_content (heap w)) docs).
  { clear Hv Hrun Hperm. induction Hcopies as [|d p docs scored Hd _ [IH1 IH2]].
    - split; reflexivity.
    - apply scored_copy_read in Hd as (Ht & _ & Hc & _).
      split; simpl; f_equal; assumption. }
  destruct Htext as [Ht Hc]. split; [|split].
  - exact (out_length docs w scored w' Hcopies).
  - rewrite <- Ht. apply Permutation_map. now apply fmap_Permutation.
  - rewrite <- Hc. apply Permutation_map. now apply fmap_Permutation.
Qed.

Lemma run_permutation_witness :
  valid_docs (heap example_world) example_docs /\
  exists out w',
    run example_server default_config "capital of France" example_docs
      example_world = (Ok out, w') /\
    length out = length example_docs /\
    Permutation (map (doc_text (heap w')) out)
                (map (doc_text (heap example_world)) example_docs) /\
    Permutation (map (doc_content (heap w')) out)
                (map (doc_content (heap example_world)) example_docs).
Proof.
  split; [exact example_valid|].
  apply (run_permutation example_server default_config "capital of France"
           example_docs example_world).
  exact example_valid.
Defined.


(** C2. The output of [run] is sorted by non-increasing score: for all
    positions [i < j] of the output, the ["rerank_score"] of the document at
    [i] is at least the one of the document at [j]. *)
Theorem run_sorted_descending server self query docs w :
  valid_docs (heap w) docs ->
  exists out w',
    run server self query docs w = (Ok out, w') /\
    forall i j di dj,
      i < j -> out !! i = Some di -> out !! j = Some dj ->
      exists si sj,
        doc_score (heap w') di = Some si /\
        doc_score (heap w') dj = Some sj /\
        Float.leb sj si = true.
Proof.
  intros Hv.
  destruct (run_spec server self query docs w Hv)
    as (scored & w' & _ & Hrun & _ & _ & Hcopies & _).
  exists (ListSort.sort fst Float.ltb true scored).*2, w'.
  split; [exact Hrun|]. exact (out_descending docs w scored w' Hcopies).
Qed.

Lemma run_sorted_descending_witness :
  valid_docs (heap example_world) example_docs /\
  exists out w',
    run example_server default_config "capital of France" example_docs
      example_world = (Ok out, w') /\
    forall i j di dj,
      i < j -> out !! i = Some di -> out !! j = Some dj ->
      exists si sj,
        doc_score (heap w') di = Some si /\
        doc_score (heap w') dj = Some sj /\
        Float.leb sj si = true.
Proof.
  split; [exact example_valid|].
  apply (run_sorted_descending example_server default_config "capital of France"
           example_docs example_world).
  exact example_valid.
Defined.

(** C3. Whatever the reply, the score lies in [0.0, 1.0].  A reply text
    read directly as a float, or through the first match of the pattern, is
    clamped; a text with neither gives 0.5; a failed call gives 0.5.  So
    [_score_relevance] always returns a score in the interval, and every
    document returned by [run] carries such a score under ["rerank_score"]. *)
Theorem score_in_unit_interval server self query docs w :
  valid_docs (heap w) docs ->
  (forall content,
     exists s,
       parse_score content = Ok s /\ in_unit s = true /\
       match of_str content with
       | Ok x => s = py_max zero (py_min one x)
       | Raise _ =>
           match Re.findall number_pattern content with
           | m :: _ => exists x, of_str m = Ok x /\ s = py_max zero (py_min one x)
           | [] => s = half
           end
       end) /\
  (forall document w0,
     exists s w1,
       _score_relevance server self query document w0 = (Ok s, w1) /\
       in_unit s = true /\
       match fetch_content server self
               (r_json (scoring_request self query document)) w0 with
       | (Ok content, _) => parse_score content = Ok s
       | (Raise _, _) => s = half
       end) /\
  exists out w',
    run server self query docs w = (Ok out, w') /\
    Forall (fun d => exists s,
              doc_score (heap w') d = Some s /\ in_unit s = true) out.
Proof.
  intros Hv. split; [exact parse_score_paths|]. split.
  - intros document w0. rewrite score_relevance_unfold.
    destruct (fetch_content _ _ _ w0) as [[content|e] w1].
    + destruct (parse_score_paths content) as (s & Hs & Hu & _).
      exists s, w1. now rewrite Hs.
    + exists half, w1. auto.
  - destruct (run_spec server self query docs w Hv)
      as (scored & w' & _ & Hrun & _ & _ & Hcopies & _).
    exists (ListSort.sort fst Float.ltb true scored).*2, w'.
    split; [exact Hrun|]. exact (out_scored docs w scored w' Hcopies).
Qed.

Lemma score_in_unit_interval_witness :
  valid_docs (heap example_world) example_docs /\
  exists out w',
    run example_server default_config "capital of France" example_docs
      example_world = (Ok out, w') /\
    Forall (fun d => exists s,
              doc_score (heap w') d = Some s /\ in_unit s = true) out.
Proof.
  split; [exact example_valid|].
  apply (score_in_unit_interval example_server default_config
           "capital of France" example_docs example_world).
  exact example_valid.
Defined.


(** C4. The sort of [run] is stable: when the documents at positions
    [i < j] of the input receive equal scores, the copy of the first stands
    before the copy of the second in the output.  The output has no
    duplicates, so these positions are the positions of the two copies. *)
Theorem run_stable_on_ties server self query docs w :
  valid_docs (heap w) docs ->
  exists scored out w',
    score_loop server self query docs [] w = (Ok scored, w') /\
    run server self query docs w = (Ok out, w') /\
    Forall2 (scored_copy (heap w) (heap w')) docs scored /\
    NoDup out /\
    forall i j si ni sj nj,
      i < j -> scored !! i = Some (si, ni) -> scored !! j = Some (sj, nj) ->
      feq si sj = true ->
      exists p q, p < q /\ out !! p = Some ni /\ out !! q = Some nj.
Proof.
  intros Hv.
  destruct (run_spec server self query docs w Hv)
    as (scored & w' & Hloop & Hrun & _ & _ & Hcopies & Hnd).
  exists scored, (ListSort.sort fst Float.ltb true scored).*2, w'.
  split; [exact Hloop|]. split; [exact Hrun|]. split; [exact Hcopies|]. split.
  - now rewrite (sorted_perm scored).
  - intros i j si ni sj nj Hij Hi Hj Heq.
    apply (sublist_pair_lookup _ ni nj).
    change [ni; nj] with ([(si, ni); (sj, nj)].*2). apply fmap_sublist.
    apply sorted_stable.
    + eapply scores_in_unit; eauto.
    + eapply lookup_pair_sublist; eauto.
    + now apply feq_ltb.
Qed.

Lemma run_stable_on_ties_witness :
  valid_docs (heap example_world) example_docs /\
  exists scored out w',
    score_loop (stub_server []) default_config "capital of France"
      example_docs [] example_world = (Ok scored, w') /\
    run (stub_server []) default_config "capital of France" example_docs
      example_world = (Ok out, w') /\
    Forall2 (scored_copy (heap example_world) (heap w')) example_docs scored /\
    NoDup out /\
    forall i j si ni sj nj,
      i < j -> scored !! i = Some (si, ni) -> scored !! j = Some (sj, nj) ->
      feq si sj = true ->
      exists p q, p < q /\ out !! p = Some ni /\ out !! q = Some nj.
Proof.
  split; [exact example_valid|].
  apply (run_stable_on_ties (stub_server []) default_config "capital of France"
           example_docs example_world).
  exact example_valid.
Defined.


(** C5 as stated fails for the statuses that [raise_for_status] lets
    through: a response with status 300 and a well-formed body is scored from
    its body, here 0.9, not 0.5. *)
Lemma status_300_scored_from_body :
  ~ (200 <= 300 < 300)%Z /\
  exists x,
    fst (_score_relevance (stub_server [Response 300 (Some (chat_body "0.9"))])
           default_config "capital of France" "Paris" example_world) = Ok x /\
    x <> half.
Proof.
  split; [lia|]. eexists. split; [vm_compute; reflexivity|]. discriminate.
Qed.

(** C5, amended. A scoring call that fails (the transport raises, the
    status is in 400..599, the body is not JSON, or the reply text is missing
    from the body) returns the score 0.5; more generally every exception
    raised before the reply text is obtained is caught and gives 0.5.  No
    error escapes [run]: on a well-formed input it returns a list as long as
    the input, every document scored within [0.0, 1.0], ordered by
    non-increasing score. *)
Theorem scoring_errors_absorbed server self query docs w :
  valid_docs (heap w) docs ->
  (forall document w0,
     http_failure (server (sent w0) (scoring_request self query document)) ->
     _score_relevance server self query document w0 =
       (Ok half, {| heap := heap w0;
                    sent := sent w0 ++ [scoring_request self query document] |})) /\
  (forall document w0 e w1,
     fetch_content server self (r_json (scoring_request self query document)) w0
       = (Raise e, w1) ->
     _score_relevance server self query document w0 = (Ok half, w1)) /\
  exists out w',
    run server self query docs w = (Ok out, w') /\
    length out = length docs /\
    Forall (fun d => exists s,
              doc_score (heap w') d = Some s /\ in_unit s = true) out /\
    forall i j di dj,
      i < j -> out !! i = Some di -> out !! j = Some dj ->
      exists si sj,
        doc_score (heap w') di = Some si /\
        doc_score (heap w') dj = Some sj /\
        Float.leb sj si = true.
Proof.
  intros Hv. split; [|split].
  - intros document w0 Hf. rewrite score_relevance_unfold.
    now destruct (fetch_content_failure server self query document w0 Hf) as [e ->].
  - intros document w0 e w1 Hf. rewrite score_relevance_unfold. now rewrite Hf.
  - destruct (run_spec server self query docs w Hv)
      as (scored & w' & _ & Hrun & _ & _ & Hcopies & _).
    exists (ListSort.sort fst Float.ltb true scored).*2, w'.
    split; [exact Hrun|]. split; [|split].
    + exact (out_length docs w scored w' Hcopies).
    + exact (out_scored docs w scored w' Hcopies).
    + exact (out_descending docs w scored w' Hcopies).
Qed.

Lemma scoring_errors_absorbed_witness :
  valid_docs (heap example_world) example_docs /\
  http_failure (Response 503 None) /\
  _score_relevance (stub_server [Response 503 None]) default_config
    "capital of France" "Paris" example_world =
    (Ok half,
     {| heap := heap example_world;
        sent := sent example_world ++
                [scoring_request default_config "capital of France" "Paris"] |}).
Proof.
  split; [exact example_valid|]. split; [left; lia|].
  apply (scoring_errors_absorbed (stub_server [Response 503 None]) default_config
           "capital of France" example_docs example_world example_valid).
  left. simpl. lia.
Defined.


(** C6 as stated fails: on the reply [x02], which is not a float, the
    pattern matches [02], none of the shapes [0.ddd], [.ddd], [0], [1],
    [1.ddd]; the score is 1.0, where the substring [0] would give 0.0. *)
Lemma fallback_matches_other_shapes :
  of_str "x02" = Raise ValueError /\
  Re.findall number_pattern "x02" = ["02"] /\
  restricted_shape "02" = false /\
  parse_score "x02" = Ok one /\
  Re.findall number_pattern "0" = ["0"] /\ of_str "0" = Ok zero.
Proof. repeat split; vm_compute; reflexivity. Qed.

(** C6, amended. When the reply text is not a float, the fallback takes
    the leftmost match of [0?\.\d+|[01]\.?\d*]: a string of the shapes [.ddd]
    or [0.ddd], or a [0] or a [1] followed by an optional point and any
    number of digits (so [0], [1], [1.ddd], and also [0.], [1.], [02], [15]);
    the match is read as a float and clamped.  A reply without any substring
    of the shapes [0.ddd], [.ddd], [0], [1], [1.ddd] has no match and gets
    0.5.  Each of these five shapes is a shape of the pattern, and every
    string of a shape of the pattern is matched by it. *)
Theorem fallback_pattern server self query document w content w' :
  fetch_content server self (r_json (scoring_request self query document)) w
    = (Ok content, w') ->
  of_str content = Raise ValueError ->
  (forall m ms,
     Re.findall number_pattern content = m :: ms ->
     pattern_shape m = true /\
     (exists pre post,
        content = pre +:+ m +:+ post /\
        Re.match_here number_pattern (m +:+ post) = Some m /\
        forall pre1 suf1, content = pre1 +:+ suf1 ->
          String.length pre1 < String.length pre ->
          Re.match_here number_pattern suf1 = None) /\
     exists x,
       of_str m = Ok x /\
       _score_relevance server self query document w =
         (Ok (py_max zero (py_min one x)), w')) /\
  ((forall sub, substring_of sub content -> restricted_shape sub = false) ->
   Re.findall number_pattern content = [] /\
   _score_relevance server self query document w = (Ok half, w')) /\
  (forall s, restricted_shape s = true -> pattern_shape s = true) /\
  (forall m, pattern_shape m = true ->
     Re.match_here number_pattern m = Some m).
Proof.
  intros Hfetch Hfloat.
  split; [|split; [|split; [exact restricted_is_pattern
                           |exact pattern_shape_matches]]].
  - intros m ms Hfind.
    destruct (findall_number_first content m ms Hfind) as [Hshape Hfirst].
    split; [exact Hshape|]. split; [exact Hfirst|].
    destruct (of_str_pattern_shape m Hshape) as [x Hx]. exists x.
    split; [exact Hx|]. rewrite score_relevance_unfold, Hfetch.
    unfold parse_score. now rewrite Hfloat, Hfind, Hx.
  - intros Hnone. pose proof (findall_number_nil content Hnone) as Hfind.
    split; [exact Hfind|]. rewrite score_relevance_unfold, Hfetch.
    unfold parse_score. now rewrite Hfloat, Hfind.
Qed.

Lemma fallback_pattern_witness :
  fetch_content (stub_server [Response 200 (Some (chat_body "x02"))])
    default_config
    (r_json (scoring_request default_config "capital of France" "Paris"))
    example_world
    = (Ok "x02",
       {| heap := heap example_world;
          sent := [scoring_request default_config "capital of France" "Paris"] |}) /\
  of_str "x02" = Raise ValueError /\
  exists x,
    of_str "02" = Ok x /\
    _score_relevance (stub_server [Response 200 (Some (chat_body "x02"))])
      default_config "capital of France" "Paris" example_world =
      (Ok (py_max zero (py_min one x)),
       {| heap := heap example_world;
          sent := [scoring_request default_config "capital of France" "Paris"] |}).
Proof.
  assert (Hfetch :
    fetch_content (stub_server [Response 200 (Some (chat_body "x02"))])
      default_config
      (r_json (scoring_request default_config "capital of France" "Paris"))
      example_world
    = (Ok "x02",
       {| heap := heap example_world;
          sent := [scoring_request default_config "capital of France" "Paris"] |}))
    by reflexivity.
  assert (Hfloat : of_str "x02" = Raise ValueError) by reflexivity.
  split; [exact Hfetch|]. split; [exact Hfloat|].
  destruct (fallback_pattern _ _ _ _ _ _ _ Hfetch Hfloat) as [Hmatch _].
  destruct (Hmatch "02" [] eq_refl) as (_ & _ & Hx). exact Hx.
Defined.

(** C7 as stated fails for a configured length of 0: the text is longer,
    yet it is passed on whole, not cut to its first 0 characters. *)
Lemma truncate_zero_is_not_prefix :
  max_tokens (config_with_max (Some 0%Z)) = Some 0%Z /\
  (0 < Z.of_nat (String.length "Bananas are yellow."))%Z /\
  _truncate_text (config_with_max (Some 0%Z)) "Bananas are yellow."
    = "Bananas are yellow." /\
  Str.prefix (Z.to_nat 0) "Bananas are yellow." = EmptyString.
Proof. repeat split. Qed.

(** C7, amended. With a configured maximal length [n > 0], a text longer
    than [n] is cut to exactly its first [n] characters; a text of length at
    most [n] is unchanged, whatever [n].  In [run], the request for the i-th
    document carries the truncated text, while the copy of the document in
    the output, a new object, has the original text. *)
Theorem truncate_to_positive_max server self query docs w n :
  max_tokens self = Some n ->
  valid_docs (heap w) docs ->
  ((0 < n)%Z ->
   forall text, (n < Z.of_nat (String.length text))%Z ->
     _truncate_text self text = Str.prefix (Z.to_nat n) text /\
     Z.of_nat (String.length (_truncate_text self text)) = n) /\
  (forall text, (Z.of_nat (String.length text) <= n)%Z ->
     _truncate_text self text = text) /\
  exists out w',
    run server self query docs w = (Ok out, w') /\
    forall i d, docs !! i = Some d ->
      exists text nd,
        doc_text (heap w) d = Some text /\
        sent w' !! (length (sent w) + i) =
          Some (scoring_request self query (_truncate_text self text)) /\
        nd ∈ out /\ heap w !! nd = None /\
        doc_text (heap w') nd = Some text.
Proof.
  intros Hmax Hv. split; [|split].
  - intros Hpos text Hlen. unfold _truncate_text, Str.slice_to. rewrite Hmax.
    replace (n =? 0)%Z with false by lia. replace (n <? _)%Z with true by lia.
    replace (n <? 0)%Z with false by lia. simpl.
    replace (Z.min n _) with n by lia. split; [reflexivity|].
    rewrite length_prefix. lia.
  - intros text Hlen. unfold _truncate_text. rewrite Hmax.
    replace (n <? _)%Z with false by lia. now rewrite andb_false_r.
  - destruct (run_spec server self query docs w Hv)
      as (scored & w' & _ & Hrun & _ & Hsent & Hcopies & _).
    exists (ListSort.sort fst Float.ltb true scored).*2, w'.
    split; [exact Hrun|]. intros i d Hi.
    destruct (Forall2_lookup_l _ _ _ _ _ Hcopies Hi) as ([s nd] & Hp & Hcopy).
    pose proof Hcopy as (t & e & m & Ht & _ & Hnew & _).
    apply scored_copy_read in Hcopy as (Htext & _). simpl in *.
    exists t, nd. split; [exact Ht|]. split; [|split; [|split]].
    + rewrite Hsent, lookup_app_r by lia.
      replace (length (sent w) + i - length (sent w)) with i by lia.
      rewrite list_lookup_fmap, Hi. simpl. now rewrite Ht.
    + rewrite (sorted_perm scored). apply list_elem_of_fmap.
      exists (s, nd). split; [reflexivity|]. apply list_elem_of_lookup. eauto.
    + exact Hnew.
    + now rewrite Htext.
Qed.

Lemma truncate_to_positive_max_witness :
  max_tokens (config_with_max (Some 7%Z)) = Some 7%Z /\
  valid_docs (heap example_world) example_docs /\
  (0 < 7)%Z /\
  (7 < Z.of_nat (String.length "Bananas are yellow."))%Z /\
  _truncate_text (config_with_max (Some 7%Z)) "Bananas are yellow."
    = Str.prefix (Z.to_nat 7) "Bananas are yellow." /\
  Z.of_nat (String.length
              (_truncate_text (config_with_max (Some 7%Z)) "Bananas are yellow."))
    = 7%Z.
Proof.
  split; [reflexivity|]. split; [exact example_valid|].
  split; [lia|]. split; [simpl; lia|].
  destruct (truncate_to_positive_max example_server (config_with_max (Some 7%Z))
              "capital of France" example_docs example_world 7%Z
              eq_refl example_valid) as [Hcut _].
  apply Hcut; [lia|simpl; lia].
Defined.

(** C8. On the empty list [run] returns the empty list and leaves the
    world as it is: no request is posted. *)
Theorem run_empty server self query w :
  run server self query [] w = (Ok [], w) /\
  sent (snd (run server self query [] w)) = sent w.
Proof. split; reflexivity. Qed.


(** C9. [run] changes no object that existed before the call: in
    particular the text and the metadata of every input document are the
    same afterwards.  Every output document is a new object; its metadata is
    a new dictionary, holding the entries of the input document it copies
    with ["rerank_score"] set to the score, every other key as before. *)
Theorem run_leaves_input_untouched server self query docs w :
  valid_docs (heap w) docs ->
  exists out w',
    run server self query docs w = (Ok out, w') /\
    (forall l o, heap w !! l = Some o -> heap w' !! l = Some o) /\
    Forall (fun d => doc_text (heap w') d = doc_text (heap w) d /\
                     doc_entries (heap w') d = doc_entries (heap w) d) docs /\
    Forall (fun n => exists d s text entries m,
              d ∈ docs /\
              doc_text (heap w) d = Some text /\
              doc_entries (heap w) d = Some entries /\
              heap w !! n = None /\ heap w !! m = None /\
              heap w' !! n = Some (ODocument text (Some m)) /\
              heap w' !! m =
                Some (ODict (<["rerank_score" := VFloat s]> entries)) /\
              (<["rerank_score" := VFloat s]> entries) !! "rerank_score"
                = Some (VFloat s) /\
              forall k, k ≠ "rerank_score" ->
                (<["rerank_score" := VFloat s]> entries) !! k = entries !! k)
           out.
Proof.
  intros Hv.
  destruct (run_spec server self query docs w Hv)
    as (scored & w' & _ & Hrun & Hsub & _ & Hcopies & _).
  exists (ListSort.sort fst Float.ltb true scored).*2, w'.
  split; [exact Hrun|]. split; [|split].
  - intros l o Hl. eapply lookup_weaken; eauto.
  - eapply Forall_impl; [exact Hv|]. intros d Hd. simpl in Hd.
    destruct (doc_entries_text _ _ Hd) as [t Ht]. destruct Hd as [e He].
    rewrite Ht, He. split.
    + eapply doc_text_mono; eauto.
    + eapply doc_entries_mono; eauto.
  - apply Forall_lookup. intros i n Hi.
    destruct (out_scored_copy docs w scored w' Hcopies i n Hi)
      as (s & d & _ & Hd & _ & (t & e & m & Ht & He & Hn & Hm & Hn' & Hm' & _)).
    exists d, s, t, e, m. simpl in *. repeat split; auto.
    + apply lookup_insert_eq.
    + intros k Hk. now apply lookup_insert_ne.
Qed.

Lemma run_leaves_input_untouched_witness :
  valid_docs (heap example_world) example_docs /\
  exists out w',
    run example_server default_config "capital of France" example_docs
      example_world = (Ok out, w') /\
    (forall l o, heap example_world !! l = Some o -> heap w' !! l = Some o) /\
    Forall (fun d => doc_text (heap w') d = doc_text (heap example_world) d /\
                     doc_entries (heap w') d = doc_entries (heap example_world) d)
           example_docs /\
    Forall (fun n => exists d s text entries m,
              d ∈ example_docs /\
              doc_text (heap example_world) d = Some text /\
              doc_entries (heap example_world) d = Some entries /\
              heap example_world !! n = None /\ heap example_world !! m = None /\
              heap w' !! n = Some (ODocument text (Some m)) /\
              heap w' !! m =
                Some (ODict (<["rerank_score" := VFloat s]> entries)) /\
              (<["rerank_score" := VFloat s]> entries) !! "rerank_score"
                = Some (VFloat s) /\
              forall k, k ≠ "rerank_score" ->
                (<["rerank_score" := VFloat s]> entries) !! k = entries !! k)
           out.
Proof.
  split; [exact example_valid|].
  apply (run_leaves_input_untouched example_server default_config
           "capital of France" example_docs example_world).
  exact example_valid.
Defined.


(** C10. With a maximal length of 0, [_truncate_text] returns every text
    unchanged: 0 is falsy, so the guard switches truncation off. *)
Theorem truncate_zero_keeps_text self text :
  max_tokens self = Some 0%Z -> _truncate_text self text = text.
Proof. unfold _truncate_text. now intros ->. Qed.

Lemma truncate_zero_keeps_text_witness :
  max_tokens (config_with_max (Some 0%Z)) = Some 0%Z /\
  _truncate_text (config_with_max (Some 0%Z)) "Bananas are yellow."
    = "Bananas are yellow.".
Proof.
  split; [reflexivity|].
  apply (truncate_zero_keeps_text (config_with_max (Some 0%Z))). reflexivity.
Defined.

(** * Further properties of the code *)

Section StripFacts.
Local Arguments String.append !_ _ / : simpl nomatch.
Variable p : ascii -> bool.

Lemma lstrip_all ws s :
  all_chars p ws = true -> Str.lstrip p (ws +:+ s) = Str.lstrip p s.
Proof.
  induction ws as [|c ws IH]; simpl; [reflexivity|].
  intros [-> H]%andb_true_iff. auto.
Qed.

Lemma rstrip_all ws : all_chars p ws = true -> Str.rstrip p ws = EmptyString.
Proof.
  induction ws as [|c ws IH]; simpl; [reflexivity|].
  intros [-> H]%andb_true_iff. now rewrite (IH H).
Qed.

Lemma rstrip_append s t :
  Str.rstrip p (s +:+ t) =
    match Str.rstrip p t with
    | EmptyString => Str.rstrip p s
    | r => s +:+ r
    end.
Proof.
  induction s as [|c s IH]; simpl.
  - now destruct (Str.rstrip p t).
  - rewrite IH. destruct (Str.rstrip p t) as [|d r]; [reflexivity|].
    simpl. now destruct s.
Qed.

Lemma rstrip_all_r s ws :
  all_chars p ws = true -> Str.rstrip p (s +:+ ws) = Str.rstrip p s.
Proof. intros H. now rewrite rstrip_append, (rstrip_all ws H). Qed.

(** What [rstrip] leaves does not end with a character of [p]. *)
Lemma rstrip_last s c :
  last_char (Str.rstrip p s) = Some c -> p c = false.
Proof.
  induction s as [|d s IH]; simpl; [discriminate|].
  destruct (Str.rstrip p s) as [|e r] eqn:E.
  - destruct (p d) eqn:Hd; simpl; [discriminate|]. now intros [= <-].
  - simpl. exact IH.
Qed.

Lemma rstrip_idem s : Str.rstrip p (Str.rstrip p s) = Str.rstrip p s.
Proof.
  induction s as [|d s IH]; simpl; [reflexivity|].
  destruct (Str.rstrip p s) as [|e r] eqn:E.
  - destruct (p d) eqn:Hd; simpl; [reflexivity|]. now rewrite Hd.
  - simpl in *. rewrite IH. reflexivity.
Qed.
End StripFacts.

Section Strip.
Local Arguments String.append !_ _ / : simpl nomatch.

Lemma strip_padding ws ws' t :
  all_chars Str.is_space ws = true -> all_chars Str.is_space ws' = true ->
  Str.strip (ws +:+ t +:+ ws') = Str.strip t.
Proof.
  intros H H'. unfold Str.strip.
  rewrite (rstrip_append _ ws), (rstrip_all_r _ t ws' H').
  destruct (Str.rstrip Str.is_space t) as [|c r] eqn:E.
  - now rewrite (rstrip_all _ ws H).
  - now rewrite lstrip_all.
Qed.
End Strip.

Section More.
Local Arguments String.append !_ _ / : simpl nomatch.

Lemma slashes_all k : all_chars (fun c => Ascii.eqb c "/") (slashes k) = true.
Proof. induction k; simpl; auto. Qed.

Lemma prefix_split k s : exists rest, s = Str.prefix k s +:+ rest.
Proof.
  revert s. induction k as [|k IH]; intros [|c s]; simpl; eauto.
  destruct (IH s) as [rest H]. exists rest. now f_equal.
Qed.

Lemma prefix_short k s : String.length s <= k -> Str.prefix k s = s.
Proof.
  revert s. induction k as [|k IH]; intros [|c s]; simpl; auto; [lia|].
  intros H. f_equal. apply IH. lia.
Qed.
End More.

(** X12. The URL of the request does not depend on the slashes that end
    the base URL: it is the base URL without them, which does not end with a
    slash, followed by [/chat/completions]. *)
Theorem url_ignores_trailing_slashes self u k query document :
  r_url (scoring_request (with_base_url self (u +:+ slashes k)) query document)
    = r_url (scoring_request (with_base_url self u) query document) /\
  exists root,
    r_url (scoring_request self query document) = root +:+ "/chat/completions" /\
    last_char root <> Some "/"%char.
Proof.
  split.
  - simpl. unfold Str.rstrip_slash.
    now rewrite (rstrip_all_r _ u (slashes k) (slashes_all k)).
  - exists (Str.rstrip_slash (base_url self)). split; [reflexivity|].
    intros H. apply rstrip_last in H. discriminate.
Qed.

(** X6. Whatever the configuration, the text that [_truncate_text] returns
    starts the text it was given: truncation only removes characters, and
    only at the end. *)
Theorem truncate_is_prefix self text :
  exists rest, text = _truncate_text self text +:+ rest.
Proof.
  unfold _truncate_text, Str.slice_to.
  destruct (max_tokens self) as [n|]; [|exists EmptyString; now rewrite append_nil_r].
  destruct (negb (n =? 0)%Z && (n <? Z.of_nat (String.length text))%Z);
    [apply prefix_split|exists EmptyString; now rewrite append_nil_r].
Qed.

(** X7. With a positive maximal length [n], the truncated text has
    [min n (len text)] characters, and truncating again changes nothing. *)
Theorem truncate_positive_bound self n text :
  max_tokens self = Some n -> (0 < n)%Z ->
  String.length (_truncate_text self text)
    = Nat.min (Z.to_nat n) (String.length text) /\
  _truncate_text self (_truncate_text self text) = _truncate_text self text.
Proof.
  intros Hmax Hpos.
  assert (Hlen : forall t, String.length (_truncate_text self t)
                           = Nat.min (Z.to_nat n) (String.length t)).
  { intros t. unfold _truncate_text, Str.slice_to. rewrite Hmax.
    replace (n =? 0)%Z with false by lia. replace (n <? 0)%Z with false by lia.
    simpl. destruct (n <? Z.of_nat (String.length t))%Z eqn:E.
    - rewrite length_prefix. lia.
    - lia. }
  split; [apply Hlen|].
  pose proof (Hlen text) as H.
  unfold _truncate_text at 1. rewrite Hmax.
  replace (n <? _)%Z with false by lia. now rewrite andb_false_r.
Qed.

Lemma truncate_positive_bound_witness :
  max_tokens (config_with_max (Some 7%Z)) = Some 7%Z /\ (0 < 7)%Z /\
  String.length (_truncate_text (config_with_max (Some 7%Z)) "Bananas are yellow.")
    = Nat.min (Z.to_nat 7) (String.length "Bananas are yellow.") /\
  _truncate_text (config_with_max (Some 7%Z))
    (_truncate_text (config_with_max (Some 7%Z)) "Bananas are yellow.")
    = _truncate_text (config_with_max (Some 7%Z)) "Bananas are yellow.".
Proof.
  split; [reflexivity|]. split; [lia|].
  apply (truncate_positive_bound (config_with_max (Some 7%Z)) 7%Z); [reflexivity|lia].
Defined.

(** X8. With a negative maximal length [n], every text loses its last
    [-n] characters (all of them when it has fewer): the slice [text[:n]]
    counts from the end. *)
Theorem truncate_negative_drops_tail self n text :
  max_tokens self = Some n -> (n < 0)%Z ->
  _truncate_text self text
    = Str.prefix (Z.to_nat (Z.of_nat (String.length text) + n)) text /\
  String.length (_truncate_text self text)
    = Z.to_nat (Z.of_nat (String.length text) + n).
Proof.
  intros Hmax Hneg. unfold _truncate_text, Str.slice_to. rewrite Hmax.
  replace (n =? 0)%Z with false by lia.
  assert ((n <? Z.of_nat (String.length text))%Z = true) as ->
    by (apply Z.ltb_lt; lia).
  assert ((n <? 0)%Z = true) as -> by (apply Z.ltb_lt; lia). simpl.
  replace (Z.to_nat (Z.max 0 (Z.of_nat (String.length text) + n)))
    with (Z.to_nat (Z.of_nat (String.length text) + n)) by lia.
  split; [reflexivity|]. rewrite length_prefix. lia.
Qed.

Lemma truncate_negative_drops_tail_witness :
  max_tokens (config_with_max (Some (-8)%Z)) = Some (-8)%Z /\ (-8 < 0)%Z /\
  _truncate_text (config_with_max (Some (-8)%Z)) "Bananas are yellow."
    = "Bananas are".
Proof.
  split; [reflexivity|]. split; [lia|].
  destruct (truncate_negative_drops_tail (config_with_max (Some (-8)%Z)) (-8)%Z
              "Bananas are yellow." eq_refl) as [H _]; [lia|].
  rewrite H. reflexivity.
Defined.

Lemma leb_ltb_false a b : Float.leb a b = true -> Float.ltb b a = false.
Proof.
  unfold ltb, leb, SFltb, SFleb.
  destruct a as [sa|sa| |sa ma ea], b as [sb|sb| |sb mb eb]; simpl;
    try destruct sa; try destruct sb; simpl; try congruence.
  all: rewrite (Z.compare_antisym ea eb); destruct (ea ?= eb)%Z; simpl; try congruence.
  all: change (Pos.compare_cont Eq) with Pos.compare;
    rewrite (Pos.compare_antisym ma mb); destruct (ma ?= mb)%positive; simpl; congruence.
Qed.

Lemma leb_not_nan_l a b : Float.leb a b = true -> is_nan a = false.
Proof. now destruct a. Qed.

(** X9. A reply that reads as a float is scored as follows: NaN and every
    value of at least 1.0, the positive infinity included, give 1.0; every
    value of at most 0.0, the negative zero and the negative infinity
    included, gives 0.0; a value strictly between 0.0 and 1.0 is the score
    itself. *)
Theorem parse_score_clamps content x :
  of_str content = Ok x ->
  (is_nan x = true -> parse_score content = Ok one) /\
  (Float.leb one x = true -> parse_score content = Ok one) /\
  (Float.leb x zero = true -> parse_score content = Ok zero) /\
  (Float.ltb zero x = true -> Float.ltb x one = true ->
   parse_score content = Ok x).
Proof.
  intros H. unfold parse_score. rewrite H. unfold py_max, py_min.
  split; [|split; [|split]].
  - destruct x; try discriminate. reflexivity.
  - intros Hx. now rewrite (leb_ltb_false one x Hx).
  - intros Hx. pose proof (leb_ltb_false x zero Hx) as H0.
    destruct (ltb_negtrans zero one x (leb_not_nan_l x zero Hx) eq_refl) as [H1|H1];
      [congruence|].
    rewrite H1. cbv iota. now rewrite H0.
  - intros H0 H1. rewrite H1. cbv iota. now rewrite H0.
Qed.

Lemma parse_score_clamps_witness :
  of_str "nan" = Ok S754_nan /\ is_nan S754_nan = true /\
  parse_score "nan" = Ok one.
Proof.
  split; [reflexivity|]. split; [reflexivity|].
  destruct (parse_score_clamps "nan" S754_nan eq_refl) as [Hnan _].
  apply Hnan. reflexivity.
Defined.

Section SortTies.
Context {A K : Type}.
Variable key : A -> K.
Variable lt : K -> K -> bool.

Lemma insert_no_lt x l :
  Forall (fun y => lt (key x) (key y) = false) l ->
  ListSort.insert key lt x l = l ++ [x].
Proof.
  induction 1 as [|y l Hy _ IH]; simpl; [reflexivity|]. now rewrite Hy, IH.
Qed.

Lemma sort_asc_no_lt l :
  (forall a b, a ∈ l -> b ∈ l -> lt (key a) (key b) = false) ->
  ListSort.sort_asc key lt l = l.
Proof.
  induction l as [|x l IH] using rev_ind; intros H; [reflexivity|].
  rewrite sort_asc_snoc, IH.
  - apply insert_no_lt. apply Forall_forall. intros y Hy.
    apply H; apply elem_of_app; [right; apply list_elem_of_here|now left].
  - intros a b Ha Hb. apply H; apply elem_of_app; now left.
Qed.

(** Without two elements in strict order, sorting changes nothing. *)
Lemma sort_no_lt reverse l :
  (forall a b, a ∈ l -> b ∈ l -> lt (key a) (key b) = false) ->
  ListSort.sort key lt reverse l = l.
Proof.
  intros H. destruct reverse; simpl; [|now apply sort_asc_no_lt].
  rewrite sort_asc_no_lt; [apply rev_involutive|].
  intros a b Ha Hb. apply H.
  - apply list_elem_of_In. apply in_rev. now apply list_elem_of_In.
  - apply list_elem_of_In. apply in_rev. now apply list_elem_of_In.
Qed.
End SortTies.

Section Calls.
Variable server : list request -> request -> reply.
Variable self : config.

(** A reply with a status that does not raise and a body that holds a reply
    text is fetched as that text. *)
Lemma fetch_content_success query document w status j c :
  server (sent w) (scoring_request self query document)
    = Response status (Some j) ->
  ~ (400 <= status < 600)%Z ->
  reply_content j = Ok c ->
  fetch_content server self (r_json (scoring_request self query document)) w
    = (Ok c, {| heap := heap w;
                sent := sent w ++ [scoring_request self query document] |}).
Proof.
  intros Hreply Hstatus Hc. unfold fetch_content, bind, post, lift. simpl.
  fold (scoring_request self query document). rewrite Hreply. simpl.
  unfold raise_for_status.
  destruct ((400 <=? status)%Z && (status <? 600)%Z) eqn:E; [lia|].
  simpl. now rewrite Hc.
Qed.

(** The scores that the loop collects are scores that [_score_relevance]
    returned. *)
Lemma score_loop_scores (P : float -> Prop) query :
  (forall document w0 s w1,
     _score_relevance server self query document w0 = (Ok s, w1) -> P s) ->
  forall docs acc w res w',
    score_loop server self query docs acc w = (Ok res, w') ->
    Forall (fun p => P p.1) acc -> Forall (fun p => P p.1) res.
Proof.
  intros HP docs. induction docs as [|d docs IH]; intros acc w res w' Hrun Hacc.
  - simpl in Hrun. now injection Hrun as <- _.
  - simpl in Hrun. unfold bind in Hrun at 1.
    destruct (get_text d w) as [[t|e] w1]; [|discriminate].
    unfold bind in Hrun at 1.
    destruct (_score_relevance server self query (_truncate_text self t) w1)
      as [[s|e] w2] eqn:Es; [|discriminate].
    unfold bind in Hrun at 1.
    destruct (get_text d w2) as [[t'|e] w3]; [|discriminate].
    unfold bind in Hrun at 1.
    destruct (get_metadata d w3) as [[md|e] w4]; [|discriminate].
    unfold bind in Hrun at 1.
    destruct (entries_or_empty md w4) as [[en|e] w5]; [|discriminate].
    unfold bind in Hrun at 1.
    destruct (alloc _ w5) as [[m|e] w6]; [|discriminate].
    unfold bind in Hrun at 1.
    destruct (alloc _ w6) as [[n|e] w7]; [|discriminate].
    apply (IH _ _ _ _ Hrun). apply Forall_app. split; [exact Hacc|].
    constructor; [|constructor]. simpl. eapply HP; eauto.
Qed.
End Calls.

Lemma reply_content_chat_body text :
  reply_content (chat_body text) = Ok (Str.strip text).
Proof. reflexivity. Qed.

(** The copies stand in the order of the documents they copy. *)
Lemma copies_in_order h h' docs (scored : list (float * loc)) :
  Forall2 (scored_copy h h') docs scored ->
  map (doc_text h') scored.*2 = map (doc_text h) docs /\
  map (doc_content h') scored.*2 = map (doc_content h) docs /\
  valid_docs h' scored.*2.
Proof.
  induction 1 as [|d p docs scored Hd _ (IH1 & IH2 & IH3)].
  - repeat split. constructor.
  - pose proof Hd as (t & e & m & _ & _ & _ & _ & Hp & Hm & _).
    apply scored_copy_read in Hd as (Ht & _ & Hc & _).
    split; [|split].
    + simpl. now f_equal.
    + simpl. now f_equal.
    + constructor; [|exact IH3]. unfold doc_entries. rewrite Hp, Hm. eauto.
Qed.

(** X2. A scoring call never raises, changes no object, and posts exactly
    one request, whether the call succeeds or fails: a POST to the base URL
    without its trailing slashes followed by [/chat/completions], with the
    bearer and content-type headers of the session, a single user message
    holding the prompt, and an output cap of 10 tokens. *)
Theorem scoring_call_posts_one_request server self query document w :
  exists s,
    _score_relevance server self query document w =
      (Ok s, {| heap := heap w;
                sent := sent w ++ [scoring_request self query document] |}) /\
    r_url (scoring_request self query document)
      = Str.rstrip_slash (base_url self) +:+ "/chat/completions" /\
    r_headers (scoring_request self query document)
      = [("Authorization", "Bearer " +:+ api_key self);
         ("Content-Type", "application/json")] /\
    p_messages (r_json (scoring_request self query document))
      = [ {| role := "user"; content := prompt_of query document |} ] /\
    p_max_tokens (r_json (scoring_request self query document)) = 10%Z.
Proof.
  destruct (score_relevance_spec server self query document w) as (s & Hs & _).
  exists s. repeat split. exact Hs.
Qed.

(** X10. When the response has a status outside 400..599 and a body from
    which the reply text can be read, the score is the one [parse_score]
    gives for that text: the default 0.5 of the error path is not used. *)
Theorem successful_reply_scored server self query document w status j c :
  server (sent w) (scoring_request self query document)
    = Response status (Some j) ->
  ~ (400 <= status < 600)%Z ->
  reply_content j = Ok c ->
  exists s,
    parse_score c = Ok s /\
    _score_relevance server self query document w =
      (Ok s, {| heap := heap w;
                sent := sent w ++ [scoring_request self query document] |}).
Proof.
  intros Hreply Hstatus Hc.
  destruct (parse_score_paths c) as (s & Hs & _). exists s. split; [exact Hs|].
  rewrite score_relevance_unfold.
  rewrite (fetch_content_success server self query document w status j c
             Hreply Hstatus Hc).
  now rewrite Hs.
Qed.

Lemma successful_reply_scored_witness :
  stub_server [Response 200 (Some (chat_body "0.95"))]
    (sent example_world)
    (scoring_request default_config "capital of France" "Paris")
    = Response 200 (Some (chat_body "0.95")) /\
  ~ (400 <= 200 < 600)%Z /\
  reply_content (chat_body "0.95") = Ok "0.95" /\
  exists s,
    parse_score "0.95" = Ok s /\
    _score_relevance (stub_server [Response 200 (Some (chat_body "0.95"))])
      default_config "capital of France" "Paris" example_world =
      (Ok s, {| heap := heap example_world;
                sent := sent example_world ++
                  [scoring_request default_config "capital of France" "Paris"] |}).
Proof.
  split; [reflexivity|]. split; [lia|]. split; [reflexivity|].
  apply (successful_reply_scored
           (stub_server [Response 200 (Some (chat_body "0.95"))])
           default_config "capital of France" "Paris" example_world 200
           (chat_body "0.95") "0.95"); [reflexivity|lia|reflexivity].
Defined.

(** X11. Whitespace around the reply text plays no role: a completion
    whose text is [text] between two runs of whitespace is scored as the
    stripped [text]. *)
Theorem reply_whitespace_ignored server self query document w status ws text ws' :
  all_chars Str.is_space ws = true ->
  all_chars Str.is_space ws' = true ->
  server (sent w) (scoring_request self query document)
    = Response status (Some (chat_body (ws +:+ text +:+ ws'))) ->
  ~ (400 <= status < 600)%Z ->
  exists s,
    parse_score (Str.strip text) = Ok s /\
    _score_relevance server self query document w =
      (Ok s, {| heap := heap w;
                sent := sent w ++ [scoring_request self query document] |}).
Proof.
  intros Hws Hws' Hreply Hstatus.
  destruct (parse_score_paths (Str.strip text)) as (s & Hs & _).
  exists s. split; [exact Hs|].
  rewrite score_relevance_unfold.
  rewrite (fetch_content_success server self query document w status _
             (Str.strip text) Hreply Hstatus).
  - now rewrite Hs.
  - rewrite reply_content_chat_body. f_equal. now apply strip_padding.
Qed.

Lemma reply_whitespace_ignored_witness :
  all_chars Str.is_space " " = true /\
  all_chars Str.is_space newline = true /\
  ~ (400 <= 200 < 600)%Z /\
  exists s,
    parse_score (Str.strip "0.95") = Ok s /\
    _score_relevance
      (stub_server [Response 200 (Some (chat_body (" " +:+ "0.95" +:+ newline)))])
      default_config "capital of France" "Paris" example_world =
      (Ok s, {| heap := heap example_world;
                sent := sent example_world ++
                  [scoring_request default_config "capital of France" "Paris"] |}).
Proof.
  split; [reflexivity|]. split; [reflexivity|]. split; [lia|].
  apply (reply_whitespace_ignored
           (stub_server [Response 200 (Some (chat_body (" " +:+ "0.95" +:+ newline)))])
           default_config "capital of France" "Paris" example_world 200
           " " "0.95" newline); [reflexivity|reflexivity|reflexivity|lia].
Defined.

(** X1. On a well-formed input [run] posts exactly one request per
    document, in the order of the input and whatever the replies: the i-th
    new request is the scoring request for the truncated text of the i-th
    document. *)
Theorem run_posts_one_request_per_document server self query docs w :
  valid_docs (heap w) docs ->
  exists out w',
    run server self query docs w = (Ok out, w') /\
    sent w' = sent w ++
      map (fun d => scoring_request self query
             (_truncate_text self (default EmptyString (doc_text (heap w) d))))
          docs /\
    length (sent w') = length (sent w) + length docs.
Proof.
  intros Hv.
  destruct (run_spec server self query docs w Hv)
    as (scored & w' & _ & Hrun & _ & Hsent & _).
  exists (ListSort.sort fst Float.ltb true scored).*2, w'.
  split; [exact Hrun|]. split; [exact Hsent|].
  rewrite Hsent, length_app. f_equal. apply length_map.
Qed.

Lemma run_posts_one_request_per_document_witness :
  valid_docs (heap example_world) example_docs /\
  exists out w',
    run example_server default_config "capital of France" example_docs
      example_world = (Ok out, w') /\
    sent w' = sent example_world ++
      map (fun d => scoring_request default_config "capital of France"
             (_truncate_text default_config
                (default EmptyString (doc_text (heap example_world) d))))
          example_docs /\
    length (sent w') = length (sent example_world) + length example_docs.
Proof.
  split; [exact example_valid|].
  apply (run_posts_one_request_per_document example_server default_config
           "capital of France" example_docs example_world).
  exact example_valid.
Defined.

(** X3. When every scoring call fails, every returned document has the
    score 0.5 and the documents come back in the order of the input. *)
Theorem run_all_calls_fail_keeps_order server self query docs w :
  (forall history r, http_failure (server history r)) ->
  valid_docs (heap w) docs ->
  exists out w',
    run server self query docs w = (Ok out, w') /\
    map (doc_text (heap w')) out = map (doc_text (heap w)) docs /\
    map (doc_content (heap w')) out = map (doc_content (heap w)) docs /\
    Forall (fun n => doc_score (heap w') n = Some half) out.
Proof.
  intros Hfail Hv.
  destruct (run_spec server self query docs w Hv)
    as (scored & w' & Hloop & Hrun & _ & _ & Hcopies & _).
  assert (Hhalf : Forall (fun p => p.1 = half) scored).
  { apply (score_loop_scores server self (fun s => s = half) query) with
      (docs := docs) (acc := []) (w := w) (w' := w'); [|exact Hloop|constructor].
    intros document w0 s w1 Hs. rewrite score_relevance_unfold in Hs.
    destruct (fetch_content_failure server self query document w0 (Hfail _ _))
      as [e He].
    rewrite He in Hs. now injection Hs as <- _. }
  assert (Hsort : ListSort.sort fst Float.ltb true scored = scored).
  { apply sort_no_lt. intros a b Ha Hb. rewrite Forall_forall in Hhalf.
    now rewrite (Hhalf a Ha), (Hhalf b Hb). }
  rewrite Hsort in Hrun. exists scored.*2, w'. split; [exact Hrun|].
  destruct (copies_in_order _ _ _ _ Hcopies) as (Ht & Hc & _).
  split; [exact Ht|]. split; [exact Hc|].
  apply Forall_fmap. apply Forall_lookup. intros i p Hi. simpl.
  destruct (Forall2_lookup_r _ _ _ _ _ Hcopies Hi) as (d & _ & Hcopy).
  apply scored_copy_read in Hcopy as (_ & Hs & _).
  rewrite Forall_lookup in Hhalf. now rewrite <- (Hhalf i p Hi).
Qed.

Lemma run_all_calls_fail_keeps_order_witness :
  (forall history r, http_failure (stub_server [] history r)) /\
  valid_docs (heap example_world) example_docs /\
  exists out w',
    run (stub_server []) default_config "capital of France" example_docs
      example_world = (Ok out, w') /\
    map (doc_text (heap w')) out
      = map (doc_text (heap example_world)) example_docs /\
    map (doc_content (heap w')) out
      = map (doc_content (heap example_world)) example_docs /\
    Forall (fun n => doc_score (heap w') n = Some half) out.
Proof.
  assert (Hfail : forall history r, http_failure (stub_server [] history r))
    by (intros history r; exact I).
  split; [exact Hfail|]. split; [exact example_valid|].
  apply (run_all_calls_fail_keeps_order (stub_server []) default_config
           "capital of France" example_docs example_world Hfail example_valid).
Defined.

(** X4. The output of [run] is a well-formed input of [run]: reranking it
    again, with any endpoint, configuration and query, succeeds, returns as
    many documents as there were at first, with the same contents (text and
    metadata other than the score), and still changes no object that existed
    before the first call. *)
Theorem run_twice_keeps_contents server1 self1 query1 server2 self2 query2 docs w :
  valid_docs (heap w) docs ->
  exists out1 w1 out2 w2,
    run server1 self1 query1 docs w = (Ok out1, w1) /\
    valid_docs (heap w1) out1 /\
    run server2 self2 query2 out1 w1 = (Ok out2, w2) /\
    length out2 = length docs /\
    Permutation (map (doc_content (heap w2)) out2)
                (map (doc_content (heap w)) docs) /\
    (forall l o, heap w !! l = Some o -> heap w2 !! l = Some o).
Proof.
  intros Hv.
  destruct (run_spec server1 self1 query1 docs w Hv)
    as (sc1 & w1 & _ & Hrun1 & Hsub1 & _ & Hcopies1 & _).
  destruct (copies_in_order _ _ _ _ Hcopies1) as (_ & Hc1 & Hv1).
  set (out1 := (ListSort.sort fst Float.ltb true sc1).*2) in *.
  assert (Hp1 : Permutation out1 sc1.*2)
    by (apply fmap_Permutation, sorted_perm).
  assert (Hvalid1 : valid_docs (heap w1) out1).
  { unfold valid_docs. now rewrite Hp1. }
  destruct (run_spec server2 self2 query2 out1 w1 Hvalid1)
    as (sc2 & w2 & _ & Hrun2 & Hsub2 & _ & Hcopies2 & _).
  destruct (copies_in_order _ _ _ _ Hcopies2) as (_ & Hc2 & _).
  exists out1, w1, (ListSort.sort fst Float.ltb true sc2).*2, w2.
  split; [exact Hrun1|]. split; [exact Hvalid1|]. split; [exact Hrun2|].
  split; [|split].
  - rewrite (out_length out1 w1 sc2 w2 Hcopies2).
    exact (out_length docs w sc1 w1 Hcopies1).
  - rewrite (fmap_Permutation snd _ _ (sorted_perm sc2)).
    change (map (doc_content (heap w2)) sc2.*2 ≡ₚ map (doc_content (heap w)) docs).
    rewrite Hc2, <- Hc1. apply Permutation_map. exact Hp1.
  - intros l o Hl. eapply lookup_weaken; [|exact Hsub2].
    eapply lookup_weaken; eauto.
Qed.

Lemma run_twice_keeps_contents_witness :
  valid_docs (heap example_world) example_docs /\
  exists out1 w1 out2 w2,
    run example_server default_config "capital of France" example_docs
      example_world = (Ok out1, w1) /\
    valid_docs (heap w1) out1 /\
    run (stub_server []) default_config "yellow fruit" out1 w1 = (Ok out2, w2) /\
    length out2 = length example_docs /\
    Permutation (map (doc_content (heap w2)) out2)
                (map (doc_content (heap example_world)) example_docs) /\
    (forall l o, heap example_world !! l = Some o -> heap w2 !! l = Some o).
Proof.
  split; [exact example_valid|].
  apply (run_twice_keeps_contents example_server default_config
           "capital of France" (stub_server []) default_config "yellow fruit"
           example_docs example_world).
  exact example_valid.
Defined.

(** X5. The order of the output is fixed by the scores and the order of the
    input: every arrangement of the scored documents that is non-increasing
    in score and keeps ties in input order is the list that [run] returns. *)
Theorem run_order_determined server self query docs w :
  valid_docs (heap w) docs ->
  exists scored out w',
    score_loop server self query docs [] w = (Ok scored, w') /\
    run server self query docs w = (Ok out, w') /\
    forall l',
      ListSort.stable_desc fst Float.ltb scored l' -> l'.*2 = out.
Proof.
  intros Hv.
  destruct (run_spec server self query docs w Hv)
    as (scored & w' & Hloop & Hrun & _ & _ & Hcopies & Hnd).
  exists scored, (ListSort.sort fst Float.ltb true scored).*2, w'.
  split; [exact Hloop|]. split; [exact Hrun|]. intros l' Hl'. f_equal.
  apply sorted_unique; [|eapply scores_in_unit; eauto|exact Hl'].
  eapply NoDup_fmap_1. exact Hnd.
Qed.

Lemma run_order_determined_witness :
  valid_docs (heap example_world) example_docs /\
  exists scored out w',
    score_loop example_server default_config "capital of France" example_docs []
      example_world = (Ok scored, w') /\
    run example_server default_config "capital of France" example_docs
      example_world = (Ok out, w') /\
    forall l',
      ListSort.stable_desc fst Float.ltb scored l' -> l'.*2 = out.
Proof.
  split; [exact example_valid|].
  apply (run_order_determined example_server default_config "capital of France"
           example_docs example_world).
  exact example_valid.
Defined.
